(** * A shallow embedding of layer_toolkit's analysis core

    The two analysis modules of layer_toolkit, [analysis/elf.py] (top-N
    ELF hotspots under periodic separation) and [analysis/bonds.py]
    (bond-length buckets over three cell representations), modelled in
    Rocq.

    Numbers.  Python floats are modelled by exact numbers: grid values,
    fractional and Cartesian coordinates are rationals [Q] (every float is
    one), and quantities obtained through a square root (Euclidean norms,
    bond lengths, nearest-atom distances) are reals [R].  A comparison
    [sqrt S < m] is decided exactly on rationals by [sqrt_lt].  Python's
    [round(x, d)] is round-half-to-even of [x * 10^d].

    Arrays.  A 3-D numpy array is modelled by its C-order flattening
    ([reshape(-1)]) together with its shape.  Third-party library calls
    (numpy's argpartition/argsort pool, pymatgen's neighbour search,
    primitive cell and supercell site generation) are section variables;
    the facts about them that a theorem relies on are stated as explicit
    hypotheses. *)

From Stdlib Require Import String Ascii.
From Stdlib Require Import List Arith Lia ZArith QArith Qround Qminmax Qabs.
From Stdlib Require Import Reals Qreals Psatz Sorting.Sorted Permutation Bool.
Import ListNotations.

Open Scope Q_scope.

(* ------------------------------------------------------------------ *)
(** ** Python's [round(x, d)] on rationals and on reals *)

Definition Qltb (x y : Q) : bool := negb (Qle_bool y x).

(** Round half to even of a rational, to an integer. *)
Definition Qround_half_even (y : Q) : Z :=
  let f := Qfloor y in
  let r := y - inject_Z f in
  if Qltb r (1 # 2) then f
  else if Qltb (1 # 2) r then (f + 1)%Z
  else if Z.even f then f else (f + 1)%Z.

(** [round(x, d)] on a rational. *)
Definition round_Q (d : nat) (x : Q) : Q :=
  inject_Z (Qround_half_even (x * inject_Z (10 ^ Z.of_nat d))) /
  inject_Z (10 ^ Z.of_nat d).

Definition round5 : Q -> Q := round_Q 5.

(** Round half to even of a real, to an integer ([Int_part] is the floor). *)
Definition Rround_half_even (y : R) : Z :=
  let f := Int_part y in
  let r := (y - IZR f)%R in
  if Rlt_dec r (1 / 2) then f
  else if Rlt_dec (1 / 2) r then (f + 1)%Z
  else if Z.even f then f else (f + 1)%Z.

(** [round(x, d)] on a real. *)
Definition round_R (d : nat) (x : R) : R :=
  (IZR (Rround_half_even (x * IZR (10 ^ Z.of_nat d))) /
   IZR (10 ^ Z.of_nat d))%R.

(** [sqrt S < m], decided exactly on rationals (valid for [0 <= S]). *)
Definition sqrt_lt (S m : Q) : bool := Qle_bool 0 m && Qltb S (m * m).

(* ------------------------------------------------------------------ *)
(** ** Geometry helpers of [analysis/elf.py] *)

Module Elf.

(** [np.unravel_index(flat_index, grid_dimensions)] in C order: the last
    axis varies fastest, the first axis takes the remaining quotient. *)
Fixpoint unravel_rev (i : nat) (rdims : list nat) (acc : list nat) : list nat :=
  match rdims with
  | [] => acc
  | [_] => i :: acc
  | d :: ds => unravel_rev (i / d) ds ((i mod d) :: acc)
  end.

Definition unravel_index (i : nat) (dims : list nat) : list nat :=
  unravel_rev i (rev dims) [].

(** [_index_to_frac]: [value / ((dim - 1) if dim > 1 else 1)] per axis,
    zipping index and dimensions. *)
Definition frac_denominator (dim : nat) : Z :=
  if 1 <? dim then (Z.of_nat dim - 1)%Z else 1%Z.

Definition _index_to_frac (index dims : list nat) : list Q :=
  map (fun '(value, dim) => inject_Z (Z.of_nat value) / inject_Z (frac_denominator dim))
      (combine index dims).

(** [_frac_to_cart]: [np.dot(frac_coords, lattice_vectors)], the row vector
    times the matrix whose rows are the lattice vectors. *)
Definition _frac_to_cart (frac : list Q) (lattice : list (list Q)) : list Q :=
  fold_right (fun '(f, row) acc => map (fun '(a, b) => a + b)
                                        (combine (map (Qmult f) row) acc))
             [0; 0; 0] (combine frac lattice).

(** The squared norm of [np.minimum(|a - b|, 1 - |a - b|)]. *)
Definition wrap_axis (x y : Q) : Q :=
  let delta := Qabs (x - y) in Qmin delta (1 - delta).

Definition fractional_distance_sq (a b : list Q) : Q :=
  fold_right Qplus 0 (map (fun '(x, y) => wrap_axis x y * wrap_axis x y) (combine a b)).

(** [_fractional_distance]: the Euclidean norm of the wrapped deltas. *)
Definition _fractional_distance (a b : list Q) : R :=
  sqrt (Q2R (fractional_distance_sq a b)).

(** [_is_far_enough_frac]: false as soon as one accepted point lies at
    distance [< min_separation_frac]. *)
Fixpoint _is_far_enough_frac (candidate : list Q) (accepted : list (list Q))
    (min_separation_frac : Q) : bool :=
  match accepted with
  | [] => true
  | existing :: rest =>
      if sqrt_lt (fractional_distance_sq candidate existing) min_separation_frac
      then false
      else _is_far_enough_frac candidate rest min_separation_frac
  end.

End Elf.

(* ------------------------------------------------------------------ *)
(** ** [_extract_hotspots] *)

Module Hotspots.
Import Elf.

(** [ElfHotspot]; a NaN [shortest_distance] (no atoms) is [None]. *)
Record ElfHotspot := mkHotspot {
  rank : nat;
  elf_value : Q;
  frac_coord : list Q;
  cart_coord : list Q;
  shortest_distance : option R
}.

(** [np.linalg.norm(a - b)]. *)
Definition euclid (a b : list Q) : R :=
  sqrt (Q2R (fold_right Qplus 0 (map (fun '(x, y) => (x - y) * (x - y)) (combine a b)))).

(** [round(float(np.min(norm(atomic_positions_cart - cart_coord, axis=1))), 5)],
    or NaN when there is no atom. *)
Definition nearest_atom (atoms : list (list Q)) (cart : list Q) : option R :=
  match atoms with
  | [] => None
  | a :: rest =>
      Some (round_R 5 (fold_left (fun acc b => Rmin acc (euclid b cart)) rest (euclid a cart)))
  end.

(** The mutable locals of [_extract_hotspots]: the [processed] set, the
    [accepted_frac] list and the [hotspots] list. *)
Record scan_state := mkState {
  processed : list nat;
  accepted_frac : list (list Q);
  hotspots : list ElfHotspot
}.

Definition empty_state : scan_state := mkState [] [] [].

Section Extract.

(** [ordered_indices] for a pool of size [candidate_count]:
    [np.argpartition(flat, -k)[-k:]] sorted by [np.argsort(...)[::-1]]. *)
Variable argtop : list Q -> nat -> list nat.

Variable flat : list Q.                (** [elf_data.reshape(-1)] *)
Variable grid_dimensions : list nat.   (** [elf_data.shape] *)
Variable lattice_vectors : list (list Q).
Variable atomic_positions_cart : list (list Q).
Variable top_n : Z.
Variable min_separation_frac : Q.

(** One pass of the [for raw_index in ordered_indices] loop.  The boolean
    is [true] when the pass executed [return hotspots]. *)
Fixpoint scan (cands : list nat) (st : scan_state) : scan_state * bool :=
  match cands with
  | [] => (st, false)
  | flat_index :: rest =>
      if existsb (Nat.eqb flat_index) (processed st) then scan rest st
      else
        let grid_index := unravel_index flat_index grid_dimensions in
        let frac_coord := _index_to_frac grid_index grid_dimensions in
        if negb (_is_far_enough_frac frac_coord (accepted_frac st) min_separation_frac)
        then scan rest (mkState (flat_index :: processed st) (accepted_frac st) (hotspots st))
        else
          let cart_coord := _frac_to_cart frac_coord lattice_vectors in
          let h := mkHotspot (S (length (hotspots st)))
                             (round5 (nth flat_index flat 0))
                             (map round5 frac_coord)
                             (map round5 cart_coord)
                             (nearest_atom atomic_positions_cart cart_coord) in
          let st' := mkState (flat_index :: processed st)
                             (accepted_frac st ++ [frac_coord])
                             (hotspots st ++ [h]) in
          if (top_n <=? Z.of_nat (length (hotspots st')))%Z then (st', true)
          else scan rest st'
  end.

(** The [while len(hotspots) < top_n] loop with its pool doubling.  The
    fuel only bounds the recursion: [widen_fuel_enough] shows it is never
    exhausted from the initial call. *)
Fixpoint widen (fuel candidate_count : nat) (st : scan_state) : scan_state :=
  match fuel with
  | O => st
  | S fuel' =>
      if (Z.of_nat (length (hotspots st)) <? top_n)%Z then
        let '(st', returned) := scan (argtop flat candidate_count) st in
        if returned then st'
        else if length flat <=? candidate_count then st'
        else widen fuel' (Nat.min (length flat) (candidate_count * 2)) st'
      else st
  end.

Definition initial_candidate_count : nat :=
  Z.to_nat (Z.min (Z.of_nat (length flat)) (Z.max (top_n * 256) top_n)).

Definition extract_state : scan_state :=
  if length flat =? 0 then empty_state
  else widen (S (length flat)) initial_candidate_count empty_state.

Definition _extract_hotspots : list ElfHotspot := hotspots extract_state.

End Extract.

(** A deterministic instance of the pool ordering: all indices sorted by
    value, highest first (ties keep index order), cut to the pool size. *)
Fixpoint insert_desc (v : nat -> Q) (i : nat) (l : list nat) : list nat :=
  match l with
  | [] => [i]
  | j :: l' => if Qle_bool (v j) (v i) then i :: l else j :: insert_desc v i l'
  end.

Definition sort_desc (v : nat -> Q) (l : list nat) : list nat :=
  fold_right (insert_desc v) [] l.

Definition top_desc (flat : list Q) (k : nat) : list nat :=
  firstn k (sort_desc (fun i => nth i flat 0) (seq 0 (length flat))).

(** What numpy guarantees of the pool for [1 <= k <= flat.size]: indices
    into the grid, sorted by decreasing value, and no index left out of
    the pool has a larger value than one in it (ties are broken in an
    unspecified way). *)
Definition argtop_spec (argtop : list Q -> nat -> list nat) : Prop :=
  forall flat k, (1 <= k <= length flat)%nat ->
    Forall (fun i => i < length flat)%nat (argtop flat k) /\
    Sorted (fun i j => nth j flat 0 <= nth i flat 0) (argtop flat k) /\
    (forall i j, In i (argtop flat k) -> (j < length flat)%nat -> ~ In j (argtop flat k) ->
                 nth j flat 0 <= nth i flat 0).

(** numpy's [argpartition(flat, -k)[-k:]] keeps exactly [k] indices. *)
Definition argtop_size_spec (argtop : list Q -> nat -> list nat) : Prop :=
  forall flat k, (1 <= k <= length flat)%nat -> length (argtop flat k) = k.

Definition default_hotspot : ElfHotspot := mkHotspot 0 0 [] [] None.

(** The grid of the repository's separation test: a 4x4x4 grid of zeros
    with 1.0 at (0,0,0), 0.99 at (0,0,1) and 0.98 at (2,2,2). *)
Definition test_grid_4x4x4 : list Q :=
  map (fun i => if Nat.eqb i 0 then 1 else if Nat.eqb i 1 then 0.99
                else if Nat.eqb i 42 then 0.98 else 0) (seq 0 64).

Definition identity_lattice : list (list Q) := [[1; 0; 0]; [0; 1; 0]; [0; 0; 1]].

End Hotspots.

(* ------------------------------------------------------------------ *)
(** ** [analyze_elfcar_with_hotspots] *)

Module ElfAnalysis.
Import Elf Hotspots.

(** The exceptions the function can raise, and the observable effect it
    performs (reading the ELFCAR through [_load_elf_context]). *)
Inductive Exn :=
  | ValueError (msg : string)
  | RuntimeError (msg : string)
  | OSError (path : string).

Inductive event := LoadElfContext (path : string).

(** Computations that record events and may raise. *)
Definition M (A : Type) : Type := list event -> list event * (Exn + A).

Definition ret {A} (a : A) : M A := fun tr => (tr, inr a).
Definition raise {A} (e : Exn) : M A := fun tr => (tr, inl e).
Definition bind {A B} (m : M A) (k : A -> M B) : M B :=
  fun tr => match m tr with
            | (tr', inl e) => (tr', inl e)
            | (tr', inr a) => k a tr'
            end.

Notation "x <- m ;; k" := (bind m (fun x => k)) (at level 61, m at next level, right associativity).

(** What [_load_elf_context] returns: the flattened grid, its shape, the
    lattice and the Cartesian atom positions. *)
Record ElfContext := mkContext {
  ctx_flat : list Q;
  ctx_dims : list nat;
  ctx_lattice : list (list Q);
  ctx_atoms : list (list Q)
}.

(** The file system seen by [_load_elf_context]: a parsed context or the
    exception raised while reading. *)
Definition FileSystem := string -> Exn + ElfContext.

Definition _load_elf_context (fs : FileSystem) (path : string) : M ElfContext :=
  fun tr => (tr ++ [LoadElfContext path], fs path).

Record ElfMetrics := mkMetrics {
  max_elf : Q;
  max_frac_coord : list Q;
  max_cart_coord : list Q;
  metrics_shortest_distance : option R;
  average_elf : Q
}.

Record ElfAnalysisResult := mkResult {
  metrics : ElfMetrics;
  result_hotspots : list ElfHotspot
}.

(** [np.mean] of the grid. *)
Definition mean (xs : list Q) : Q :=
  fold_right Qplus 0 xs / inject_Z (Z.of_nat (length xs)).

Section Analyze.
Variable argtop : list Q -> nat -> list nat.

Definition analyze_elfcar_with_hotspots (fs : FileSystem) (path : string)
    (top_n : Z) (min_separation_frac : Q) : M ElfAnalysisResult :=
  if (top_n <? 1)%Z then raise (ValueError "top_n must be >= 1")
  else if Qltb min_separation_frac 0 then raise (ValueError "min_separation_frac must be >= 0")
  else
    ctx <- _load_elf_context fs path ;;
    let average_elf := round5 (mean (ctx_flat ctx)) in
    let hs := _extract_hotspots argtop (ctx_flat ctx) (ctx_dims ctx) (ctx_lattice ctx)
                                (ctx_atoms ctx) top_n min_separation_frac in
    match hs with
    | [] => raise (RuntimeError "No ELF hotspots could be determined")
    | top :: _ =>
        ret (mkResult (mkMetrics (elf_value top) (frac_coord top) (cart_coord top)
                                 (shortest_distance top) average_elf)
                      hs)
    end.

End Analyze.

(** Sample file systems: the 4x4x4 test grid, and a grid of one point. *)
Definition test_fs : FileSystem :=
  fun _ => inr (mkContext test_grid_4x4x4 [4; 4; 4]%nat identity_lattice []).

Definition single_point_fs : FileSystem :=
  fun _ => inr (mkContext [0.5] [1; 1; 1]%nat identity_lattice []).

Definition empty_result : ElfAnalysisResult := mkResult (mkMetrics 0 [] [] None 0) [].

Definition result_of (r : list event * (Exn + ElfAnalysisResult)) : ElfAnalysisResult :=
  match snd r with inr res => res | inl _ => empty_result end.

End ElfAnalysis.

(* ------------------------------------------------------------------ *)
(** ** The entry points of [analysis/elf.py]: [analyze_elfcar],
    [analyze_elfcar_hotspots] and [analyze_directory] *)

Module ElfDirectory.
Import Elf Hotspots ElfAnalysis.

(** [ElfLayerResult]. *)
Record ElfLayerResult := mkLayer {
  label : string;
  layer_metrics : ElfMetrics;
  layer_hotspots : list ElfHotspot
}.

Section Entry.
Variable argtop : list Q -> nat -> list nat.

(** [analyze_elfcar(path)]: [top_n=1, min_separation_frac=0.0], metrics only. *)
Definition analyze_elfcar (fs : FileSystem) (path : string) : M ElfMetrics :=
  result <- analyze_elfcar_with_hotspots argtop fs path 1 0 ;;
  ret (metrics result).

(** [analyze_elfcar_hotspots(path, top_n, min_separation_frac)]. *)
Definition analyze_elfcar_hotspots (fs : FileSystem) (path : string) (top_n : Z)
    (min_separation_frac : Q) : M (list ElfHotspot) :=
  result <- analyze_elfcar_with_hotspots argtop fs path top_n min_separation_frac ;;
  ret (result_hotspots result).

End Entry.

(** [s[n:]]. *)
Fixpoint str_drop (n : nat) (s : string) : string :=
  match n, s with
  | O, _ => s
  | S n', String _ s' => str_drop n' s'
  | S _, EmptyString => EmptyString
  end.

(** [s.replace(old, "", 1)]: the leftmost occurrence of [old] removed (an
    empty [old] leaves [s] unchanged). *)
Fixpoint remove_first (old s : string) : string :=
  if String.prefix old s then str_drop (String.length old) s
  else match s with
       | EmptyString => EmptyString
       | String c s' => String c (remove_first old s')
       end.

(** [s.split(".")[0]]: the text before the first dot. *)
Fixpoint split_dot_head (s : string) : string :=
  match s with
  | EmptyString => EmptyString
  | String c s' => if Ascii.eqb c "."%char then EmptyString else String c (split_dot_head s')
  end.

Section Label.
(** [str.lower()] (Unicode case mapping). *)
Variable str_lower : string -> string.

(** [_label_for_path], on [path.name]. *)
Definition _label_for_path (name prefix : string) : string :=
  let stem := remove_first prefix name in
  if String.eqb (str_lower stem) "bulk"%string || String.eqb stem "bulk"%string then "bulk"%string
  else split_dot_head stem.

End Label.

(** The values of [_sort_key]: [(0, int(label))] or [(1, label)]. *)
Inductive SortKey := KeyInt (n : Z) | KeyStr (s : string).

(** Python's tuple order on sort keys: the tag first, then the integer or
    the string (code point order, which is the byte order of UTF-8). *)
Definition key_leb (a b : SortKey) : bool :=
  match a, b with
  | KeyInt x, KeyInt y => Z.leb x y
  | KeyInt _, KeyStr _ => true
  | KeyStr _, KeyInt _ => false
  | KeyStr x, KeyStr y => match String.compare x y with Gt => false | _ => true end
  end.

Section Directory.
Variable argtop : list Q -> nat -> list nat.
Variable str_lower : string -> string.
(** [int(label)]: [None] where it raises [ValueError]. *)
Variable py_int : string -> option Z.
(** [path.name]. *)
Variable path_name : string -> string.

Definition _sort_key (label : string) : SortKey :=
  match py_int label with
  | Some n => KeyInt n
  | None => KeyStr label
  end.

(** [sorted(labelled, key=_sort_key)]: a stable sort, so equal keys keep
    their order. *)
Fixpoint insert_by_key (x : string * string) (l : list (string * string)) : list (string * string) :=
  match l with
  | [] => [x]
  | y :: l' => if key_leb (_sort_key (fst x)) (_sort_key (fst y)) then x :: l
               else y :: insert_by_key x l'
  end.

Definition sort_labelled (l : list (string * string)) : list (string * string) :=
  fold_right insert_by_key [] l.

(** The [for label, path in ...] loop: one analysis per file, in order; an
    exception ends the loop and the call. *)
Fixpoint analyze_all (fs : FileSystem) (top_n : Z) (min_separation_frac : Q)
    (items : list (string * string)) : M (list ElfLayerResult) :=
  match items with
  | [] => ret []
  | (label, path) :: rest =>
      analysis <- analyze_elfcar_with_hotspots argtop fs path top_n min_separation_frac ;;
      results <- analyze_all fs top_n min_separation_frac rest ;;
      ret (mkLayer label (metrics analysis) (result_hotspots analysis) :: results)
  end.

(** [analyze_directory]; [candidates] is [list(directory.glob(f"{prefix}*"))]. *)
Definition analyze_directory (fs : FileSystem) (candidates : list string) (prefix : string)
    (top_n : Z) (min_separation_frac : Q) : M (list ElfLayerResult) :=
  let labelled := map (fun path => (_label_for_path str_lower (path_name path) prefix, path))
                      candidates in
  analyze_all fs top_n min_separation_frac (sort_labelled labelled).

End Directory.

End ElfDirectory.

(* ------------------------------------------------------------------ *)
(** ** [analysis/bonds.py] *)

Module Bonds.
Import Elf.

(** A pymatgen site (species and fractional coordinates) and structure
    (rows of [lattice] are the lattice vectors). *)
Record Site := mkSite { species : string; site_frac : list Q }.
Record Structure := mkStructure { lattice : list (list Q); sites : list Site }.

(** [site.coords]: Cartesian coordinates. *)
Definition site_coords (s : Structure) (site : Site) : list Q :=
  _frac_to_cart (site_frac site) (lattice s).

(** [np.argmax]: index of the first maximal element. *)
Fixpoint argmax_aux {A} (ltb : A -> A -> bool) (l : list A) (i best : nat) (bv : A) : nat :=
  match l with
  | [] => best
  | x :: xs => if ltb bv x then argmax_aux ltb xs (S i) i x else argmax_aux ltb xs (S i) best bv
  end.

Definition argmax {A} (ltb : A -> A -> bool) (l : list A) : nat :=
  match l with
  | [] => 0
  | x :: xs => argmax_aux ltb xs 1 0 x
  end.

Definition Rltb (x y : R) : bool := if Rlt_dec x y then true else false.

(** [np.linalg.norm(v)] of a lattice vector. *)
Definition norm (v : list Q) : R := sqrt (Q2R (fold_right Qplus 0 (map (fun x => x * x) v))).

(** [int(np.argmax([np.linalg.norm(v) for v in structure.lattice.matrix]))]. *)
Definition vacuum_direction (s : Structure) : nat := argmax Rltb (map norm (lattice s)).

(** [sorted] on floats (ascending, stable). *)
Fixpoint insert_asc (x : Q) (l : list Q) : list Q :=
  match l with
  | [] => [x]
  | y :: l' => if Qle_bool x y then x :: l else y :: insert_asc x l'
  end.

Definition sort_asc (l : list Q) : list Q := fold_right insert_asc [] l.

(** [_count_layers]: sorted coordinates along the vacuum axis, the number
    of consecutive gaps larger than [gap_threshold], plus one. *)
Definition _count_layers (s : Structure) (vacuum_direction : nat) (gap_threshold : Q) : nat :=
  let coords := sort_asc (map (fun site => nth vacuum_direction (site_coords s site) 0) (sites s)) in
  let gaps := length (filter (fun '(a, b) => Qltb gap_threshold (b - a)) (combine coords (tl coords))) in
  gaps + 1.

(** [np.diag([3, 3, 3])] with row [vacuum_direction] set to [[1, 1, 1]]. *)
Definition scaling_matrix (vacuum_direction : nat) : list (list Z) :=
  map (fun r => if r =? vacuum_direction then [1; 1; 1]%Z
                else map (fun c => if r =? c then 3%Z else 0%Z) [0; 1; 2]%nat)
      [0; 1; 2]%nat.

(** pymatgen's [make_supercell(scaling_matrix)] lattice: the new lattice
    vectors are [np.dot(scaling_matrix, matrix)], row by row. *)
Definition supercell_lattice (scaling : list (list Z)) (l : list (list Q)) : list (list Q) :=
  map (fun row => _frac_to_cart (map inject_Z row) l) scaling.

(** Bond buckets: a Python dict from [(bond_type, length)] to a count, in
    insertion order. *)
Definition Key : Type := string * R.
Definition Bucket : Type := list (Key * nat).

Definition key_eqb (k1 k2 : Key) : bool :=
  if string_dec (fst k1) (fst k2) then
    if Req_EM_T (snd k1) (snd k2) then true else false
  else false.

(** [bucket.get(key, default)]. *)
Fixpoint dict_get (b : Bucket) (k : Key) (default : nat) : nat :=
  match b with
  | [] => default
  | (k', v) :: rest => if key_eqb k' k then v else dict_get rest k default
  end.

(** [bucket[key] = v]: overwrite in place, or append a new entry. *)
Fixpoint dict_set (b : Bucket) (k : Key) (v : nat) : Bucket :=
  match b with
  | [] => [(k, v)]
  | (k', v') :: rest => if key_eqb k' k then (k', v) :: rest else (k', v') :: dict_set rest k v
  end.

Definition within_tolerance (bond_type : string) (bond_length tolerance : R) (k : Key) : bool :=
  String.eqb (fst k) bond_type &&
  (if Rle_dec (Rabs (snd k - bond_length)) tolerance then true else false).

(** [_resolve_bond_key]: the first key of the same type within tolerance,
    else a fresh key with the length rounded to 3 decimals. *)
Fixpoint _resolve_bond_key (b : Bucket) (bond_type : string) (bond_length tolerance : R) : Key :=
  match b with
  | [] => (bond_type, round_R 3 bond_length)
  | (k, _) :: rest =>
      if within_tolerance bond_type bond_length tolerance k then k
      else _resolve_bond_key rest bond_type bond_length tolerance
  end.

Definition default_tolerance : R := 0.008.

(** Lines 110-111 of [_collect_bonds]:
    [key = _resolve_bond_key(bucket, bond_type, bond_length)] and
    [bucket[key] = bucket.get(key, 0) + 1]. *)
Definition add_bond (b : Bucket) (bond_type : string) (bond_length : R) : Bucket :=
  let key := _resolve_bond_key b bond_type bond_length default_tolerance in
  dict_set b key (S (dict_get b key 0)).

(** [tuple(sorted((a, b)))] on coordinate tuples: lexicographic order,
    equality of tuples is numerical equality of the floats. *)
Fixpoint lex_ltb (a b : list Q) : bool :=
  match a, b with
  | [], [] => false
  | [], _ :: _ => true
  | _ :: _, [] => false
  | x :: xs, y :: ys => if Qltb x y then true else if Qltb y x then false else lex_ltb xs ys
  end.

Fixpoint coords_eqb (a b : list Q) : bool :=
  match a, b with
  | [], [] => true
  | x :: xs, y :: ys => Qeq_bool x y && coords_eqb xs ys
  | _, _ => false
  end.

Definition bond_id (a b : list Q) : list Q * list Q := if lex_ltb b a then (b, a) else (a, b).

Definition bond_id_eqb (p q : list Q * list Q) : bool :=
  coords_eqb (fst p) (fst q) && coords_eqb (snd p) (snd q).

(** [any(coord < 0 or coord >= 1 for coord in frac)]. *)
Definition outside_cell (frac : list Q) : bool :=
  existsb (fun c => Qltb c 0 || Qle_bool 1 c) frac.

Record BondSummary := mkSummary { bond_type : string; length_ : R; count : nat }.

(** [summaries.sort(key=lambda item: item.length)] (ascending, stable). *)
Fixpoint insert_by_length (x : BondSummary) (l : list BondSummary) : list BondSummary :=
  match l with
  | [] => [x]
  | y :: l' => if Rle_dec (length_ x) (length_ y) then x :: l else y :: insert_by_length x l'
  end.

Definition _dict_to_summaries (data : Bucket) : list BondSummary :=
  fold_right insert_by_length [] (map (fun '(key, c) => mkSummary (fst key) (snd key) c) data).

Record BondAnalysisResult := mkBondResult {
  num_layers : nat;
  unit_cell_in_plane : list BondSummary;
  unit_cell_interlayer : list BondSummary;
  primitive_in_plane : list BondSummary;
  primitive_interlayer : list BondSummary;
  supercell_in_plane : list BondSummary;
  supercell_interlayer : list BondSummary
}.

Section Pymatgen.

(** [structure.get_neighbors(site, r)]: Cartesian coordinates of the
    periodic neighbour images within [r]. *)
Variable get_neighbors : Structure -> Site -> Q -> list (list Q).
(** [structure.lattice.get_fractional_coords]. *)
Variable get_fractional_coords : list (list Q) -> list Q -> list Q.
(** [SpacegroupAnalyzer(structure).get_primitive_standard_structure()]. *)
Variable primitive_standard : Structure -> Structure.
(** The sites [make_supercell] generates for a scaling matrix. *)
Variable supercell_sites : Structure -> list (list Z) -> list Site.

(** [structure.copy(); supercell.make_supercell(scaling_matrix)]. *)
Definition make_supercell (s : Structure) (scaling : list (list Z)) : Structure :=
  mkStructure (supercell_lattice scaling (lattice s)) (supercell_sites s scaling).

Definition _build_supercell (s : Structure) (vacuum_direction : nat) : Structure :=
  make_supercell s (scaling_matrix vacuum_direction).

(** The loop state of [_collect_bonds]: [in_plane], [interlayer] and the
    [processed] set of bond ids. *)
Record collect_state := mkCollect {
  in_plane : Bucket;
  interlayer : Bucket;
  processed_bonds : list (list Q * list Q)
}.

Definition collect_neighbor (s : Structure) (vacuum_direction : nat) (site_c : list Q)
    (st : collect_state) (neighbor : list Q) : collect_state :=
  let frac := get_fractional_coords (lattice s) neighbor in
  if outside_cell frac then st
  else
    let bid := bond_id site_c neighbor in
    if existsb (bond_id_eqb bid) (processed_bonds st) then st
    else
      let processed' := bid :: processed_bonds st in
      let vector := map (fun '(a, b) => a - b) (combine site_c neighbor) in
      let bond_length := norm vector in
      if argmax Qltb (map Qabs vector) =? vacuum_direction then
        mkCollect (in_plane st) (add_bond (interlayer st) "interlayer" bond_length) processed'
      else
        mkCollect (add_bond (in_plane st) "in-plane" bond_length) (interlayer st) processed'.

Definition _collect_bonds (s : Structure) (max_distance : Q) (vacuum_direction : nat)
    : Bucket * Bucket :=
  let st := fold_left
              (fun st site =>
                 fold_left (collect_neighbor s vacuum_direction (site_coords s site)) 
                           (get_neighbors s site max_distance) st)
              (sites s) (mkCollect [] [] []) in
  (in_plane st, interlayer st).

Definition analyze_structure (s : Structure) (max_distance : Q) : BondAnalysisResult :=
  let vd := vacuum_direction s in
  let num := _count_layers s vd 1.5 in
  let '(unit_plane, unit_inter) := _collect_bonds s max_distance vd in
  let '(prim_plane, prim_inter) := _collect_bonds (primitive_standard s) max_distance vd in
  let '(super_plane, super_inter) := _collect_bonds (_build_supercell s vd) max_distance vd in
  mkBondResult num
    (_dict_to_summaries unit_plane) (_dict_to_summaries unit_inter)
    (_dict_to_summaries prim_plane) (_dict_to_summaries prim_inter)
    (_dict_to_summaries super_plane) (_dict_to_summaries super_inter).

End Pymatgen.
End Bonds.

(* ================================================================== *)
(** * Proofs *)

(** ** Rounding *)

Lemma Qltb_true x y : Qltb x y = true <-> x < y.
Proof.
  unfold Qltb. rewrite negb_true_iff. split; intro H.
  - apply Qnot_le_lt. intro H'. apply Qle_bool_iff in H'. congruence.
  - destruct (Qle_bool y x) eqn:E; [|reflexivity].
    apply Qle_bool_iff in E. exfalso. exact (Qlt_not_le _ _ H E).
Qed.

Lemma Qltb_false x y : Qltb x y = false <-> y <= x.
Proof.
  unfold Qltb. rewrite negb_false_iff. apply Qle_bool_iff.
Qed.

Lemma Qltb_compat a a' b b' : a == a' -> b == b' -> Qltb a b = Qltb a' b'.
Proof.
  intros Ha Hb. destruct (Qltb a b) eqn:E; symmetry.
  - apply Qltb_true. apply Qltb_true in E. rewrite <- Ha, <- Hb. exact E.
  - apply Qltb_false. apply Qltb_false in E. rewrite <- Ha, <- Hb. exact E.
Qed.

Lemma Qround_half_even_bound y :
  inject_Z (Qround_half_even y) - (1 # 2) <= y /\ y <= inject_Z (Qround_half_even y) + (1 # 2).
Proof.
  unfold Qround_half_even.
  pose proof (Qfloor_le y) as Hlo. pose proof (Qlt_floor y) as Hhi.
  rewrite inject_Z_plus in Hhi. change (inject_Z 1) with (1 # 1) in Hhi.
  set (f := Qfloor y) in *.
  destruct (Qltb (y - inject_Z f) (1 # 2)) eqn:E1.
  { apply Qltb_true in E1. split; lra. }
  apply Qltb_false in E1.
  destruct (Qltb (1 # 2) (y - inject_Z f)) eqn:E2.
  { apply Qltb_true in E2. rewrite inject_Z_plus. change (inject_Z 1) with (1 # 1). split; lra. }
  apply Qltb_false in E2.
  destruct (Z.even f); [|rewrite inject_Z_plus; change (inject_Z 1) with (1 # 1)]; split; lra.
Qed.

Lemma Qround_half_even_comp x y : x == y -> Qround_half_even x = Qround_half_even y.
Proof.
  intros H. unfold Qround_half_even.
  rewrite (Qfloor_comp x y H).
  assert (Hr : x - inject_Z (Qfloor y) == y - inject_Z (Qfloor y)) by (rewrite H; reflexivity).
  rewrite (Qltb_compat _ _ (1 # 2) (1 # 2) Hr (Qeq_refl _)).
  rewrite (Qltb_compat (1 # 2) (1 # 2) _ _ (Qeq_refl _) Hr).
  reflexivity.
Qed.

Lemma Qround_half_even_mono x y : x <= y -> (Qround_half_even x <= Qround_half_even y)%Z.
Proof.
  intros H. destruct (Z_le_gt_dec (Qround_half_even x) (Qround_half_even y)) as [|Hgt]; auto.
  exfalso.
  destruct (Qround_half_even_bound x) as [Hx1 Hx2].
  destruct (Qround_half_even_bound y) as [Hy1 Hy2].
  assert (Hz : (Qround_half_even y + 1 <= Qround_half_even x)%Z) by lia.
  rewrite Zle_Qle, inject_Z_plus in Hz. change (inject_Z 1) with (1 # 1) in Hz.
  assert (Hyx : y <= x) by lra.
  assert (Heq : x == y) by (apply Qle_antisym; assumption).
  rewrite (Qround_half_even_comp _ _ Heq) in Hgt. lia.
Qed.

Lemma pow10_pos (d : nat) : 0 < inject_Z (10 ^ Z.of_nat d).
Proof.
  rewrite <- (Zlt_Qlt 0). apply Z.pow_pos_nonneg; lia.
Qed.

Lemma round_Q_mono d x y : x <= y -> round_Q d x <= round_Q d y.
Proof.
  intros H. unfold round_Q, Qdiv.
  pose proof (pow10_pos d) as Hp.
  apply Qmult_le_compat_r.
  - rewrite <- Zle_Qle. apply Qround_half_even_mono.
    apply Qmult_le_compat_r; [exact H | apply Qlt_le_weak; exact Hp].
  - apply Qinv_le_0_compat. apply Qlt_le_weak. exact Hp.
Qed.

Lemma round5_mono x y : x <= y -> round5 x <= round5 y.
Proof. apply round_Q_mono. Qed.

Lemma Rround_half_even_bound y :
  (IZR (Rround_half_even y) - 1 / 2 <= y <= IZR (Rround_half_even y) + 1 / 2)%R.
Proof.
  unfold Rround_half_even.
  destruct (base_Int_part y) as [Hlo Hhi].
  set (f := Int_part y) in *.
  destruct (Rlt_dec (y - IZR f) (1 / 2)) as [E1|E1].
  { split; lra. }
  destruct (Rlt_dec (1 / 2) (y - IZR f)) as [E2|E2].
  { rewrite plus_IZR. split; lra. }
  destruct (Z.even f); [|rewrite plus_IZR]; split; lra.
Qed.

Lemma round_R_3_bound x : (Rabs (round_R 3 x - x) <= 1 / 2000)%R.
Proof.
  unfold round_R. replace (10 ^ Z.of_nat 3)%Z with 1000%Z by reflexivity.
  destruct (Rround_half_even_bound (x * IZR 1000)) as [H1 H2].
  set (n := IZR (Rround_half_even (x * IZR 1000))) in *.
  apply Rabs_le. split; unfold Rdiv; lra.
Qed.

(** ** Exact comparison with a square root *)

Lemma Q2R_0 : Q2R 0 = 0%R.
Proof. unfold Q2R. simpl. lra. Qed.

Lemma sqrt_lt_spec S m :
  0 <= S -> (sqrt_lt S m = true <-> (sqrt (Q2R S) < Q2R m)%R).
Proof.
  intros HS. unfold sqrt_lt. rewrite andb_true_iff, Qle_bool_iff, Qltb_true.
  apply Qle_Rle in HS. rewrite Q2R_0 in HS.
  split.
  - intros [Hm Hlt]. apply Qle_Rle in Hm. rewrite Q2R_0 in Hm.
    apply Qlt_Rlt in Hlt. rewrite Q2R_mult in Hlt.
    rewrite <- (sqrt_square (Q2R m)) by exact Hm.
    apply sqrt_lt_1_alt. split; assumption.
  - intros H. pose proof (sqrt_pos (Q2R S)) as Hs.
    split.
    + apply Rle_Qle. rewrite Q2R_0. lra.
    + apply Rlt_Qlt. rewrite Q2R_mult.
      rewrite <- (sqrt_sqrt (Q2R S)) by exact HS. nra.
Qed.

(** ** Periodic fractional distance *)

Section Geometry.
Import Elf.

Lemma Qabs_minus_sym x y : Qabs (x - y) = Qabs (y - x).
Proof.
  destruct x as [xn xd], y as [yn yd].
  unfold Qminus, Qplus, Qopp, Qabs; simpl. f_equal.
  - rewrite <- Z.abs_opp. f_equal. ring.
  - apply Pos.mul_comm.
Qed.

Lemma wrap_axis_sym x y : wrap_axis x y = wrap_axis y x.
Proof. unfold wrap_axis. rewrite Qabs_minus_sym. reflexivity. Qed.

Lemma fractional_distance_sq_sym a b :
  fractional_distance_sq a b = fractional_distance_sq b a.
Proof.
  unfold fractional_distance_sq. revert b.
  induction a as [|x a IH]; intros [|y b]; simpl; try reflexivity.
  rewrite wrap_axis_sym, IH. reflexivity.
Qed.

Lemma fractional_distance_sq_nonneg a b : 0 <= fractional_distance_sq a b.
Proof.
  unfold fractional_distance_sq.
  induction (combine a b) as [|[x y] l IH]; simpl; [lra|].
  assert (0 <= wrap_axis x y * wrap_axis x y) by nra. lra.
Qed.

Lemma fractional_distance_sym a b : _fractional_distance a b = _fractional_distance b a.
Proof. unfold _fractional_distance. rewrite fractional_distance_sq_sym. reflexivity. Qed.

Lemma is_far_enough_spec c acc m :
  _is_far_enough_frac c acc m = true <->
  Forall (fun e => (Q2R m <= _fractional_distance c e)%R) acc.
Proof.
  induction acc as [|e acc IH]; simpl.
  - split; auto.
  - pose proof (sqrt_lt_spec (fractional_distance_sq c e) m
                  (fractional_distance_sq_nonneg c e)) as Hs.
    unfold _fractional_distance at 1.
    destruct (sqrt_lt (fractional_distance_sq c e) m) eqn:E.
    + split; [discriminate|]. intros HF. inversion HF; subst.
      destruct Hs as [Hs _]. specialize (Hs eq_refl). lra.
    + rewrite IH. split.
      * intros HF. constructor; auto.
        apply Rnot_lt_le. intro Hlt. apply Hs in Hlt. discriminate.
      * intros HF. inversion HF; auto.
Qed.

Lemma nth_map_combine {A B C} (f : A * B -> C) l1 l2 k d1 d2 dc :
  (k < length l1)%nat -> (k < length l2)%nat ->
  nth k (map f (combine l1 l2)) dc = f (nth k l1 d1, nth k l2 d2).
Proof.
  revert l2 k. induction l1 as [|a l1 IH]; intros [|b l2] k H1 H2; simpl in *; try lia.
  destruct k; [reflexivity|]. apply IH; lia.
Qed.

End Geometry.

(** ** Ordered pairs of a list *)

Lemma FOP_app_single {A} (Rel : A -> A -> Prop) l x :
  ForallOrdPairs Rel l -> Forall (fun a => Rel a x) l -> ForallOrdPairs Rel (l ++ [x]).
Proof.
  induction l as [|a l IH]; simpl; intros H HF.
  - constructor; constructor.
  - inversion H; subst. inversion HF; subst. constructor.
    + apply Forall_app. split; auto.
    + apply IH; auto.
Qed.

Lemma FOP_nth {A} (Rel : A -> A -> Prop) (l : list A) d i j :
  ForallOrdPairs Rel l -> (i < j < length l)%nat -> Rel (nth i l d) (nth j l d).
Proof.
  revert i j. induction l as [|a l IH]; intros i j H Hij; simpl in *; [lia|].
  inversion H; subst. destruct i, j; try lia.
  - rewrite Forall_forall in H2. apply H2. apply nth_In. lia.
  - apply IH; auto. lia.
Qed.

Lemma StronglySorted_app_inv_r {A} (Rel : A -> A -> Prop) l1 l2 :
  StronglySorted Rel (l1 ++ l2) -> StronglySorted Rel l2.
Proof.
  induction l1 as [|a l1 IH]; simpl; intros H; auto.
  inversion H; auto.
Qed.

Lemma StronglySorted_app_rel {A} (Rel : A -> A -> Prop) l1 l2 x y :
  StronglySorted Rel (l1 ++ l2) -> In x l1 -> In y l2 -> Rel x y.
Proof.
  induction l1 as [|a l1 IH]; simpl; intros H Hx Hy; [contradiction|].
  inversion H; subst. destruct Hx as [<-|Hx].
  - rewrite Forall_forall in H3. apply H3. apply in_or_app. right. exact Hy.
  - apply IH; auto.
Qed.

(** ** Invariants of the hotspot loop *)

Section ExtractProofs.
Import Elf Hotspots.

Variable argtop : list Q -> nat -> list nat.
Variable flat : list Q.
Variable grid_dimensions : list nat.
Variable lattice_vectors : list (list Q).
Variable atomic_positions_cart : list (list Q).
Variable top_n : Z.
Variable min_separation_frac : Q.

Local Abbreviation scan_ :=
  (scan flat grid_dimensions lattice_vectors atomic_positions_cart top_n min_separation_frac).
Local Abbreviation widen_ :=
  (widen argtop flat grid_dimensions lattice_vectors atomic_positions_cart top_n
         min_separation_frac).
Local Abbreviation extract_state_ :=
  (extract_state argtop flat grid_dimensions lattice_vectors atomic_positions_cart top_n
                 min_separation_frac).

(** Extra fuel never changes the result: the pool size at least doubles
    until it covers the grid, so [length flat - candidate_count] passes
    suffice. *)
Lemma widen_fuel_enough fuel cc st :
  (1 <= cc)%nat -> (length flat - cc < fuel)%nat -> widen_ (S fuel) cc st = widen_ fuel cc st.
Proof.
  revert cc st. induction fuel as [|fuel IH]; intros cc st H1 H2; [lia|].
  cbn [widen].
  destruct (Z.of_nat (length (hotspots st)) <? top_n)%Z; [|reflexivity].
  destruct (scan_ (argtop flat cc) st) as [st' returned].
  destruct returned; [reflexivity|].
  destruct (length flat <=? cc) eqn:E; [reflexivity|].
  apply Nat.leb_gt in E. apply IH; lia.
Qed.

Lemma widen_fuel_irrelevant k fuel cc st :
  (1 <= cc)%nat -> (length flat - cc < fuel)%nat -> widen_ (fuel + k) cc st = widen_ fuel cc st.
Proof.
  intros H1 H2. induction k as [|k IH]; [rewrite Nat.add_0_r; reflexivity|].
  rewrite Nat.add_succ_r, widen_fuel_enough; [exact IH | exact H1 | lia].
Qed.

Lemma widen_inv (P : scan_state -> Prop) :
  (forall cc st, (1 <= cc <= length flat)%nat ->
     (Z.of_nat (length (hotspots st)) < top_n)%Z -> P st -> P (fst (scan_ (argtop flat cc) st))) ->
  forall fuel cc st, (1 <= cc <= length flat)%nat -> P st -> P (widen_ fuel cc st).
Proof.
  intros Hscan fuel. induction fuel as [|fuel IH]; intros cc st Hcc Hst; cbn [widen]; [exact Hst|].
  destruct (Z.of_nat (length (hotspots st)) <? top_n)%Z eqn:Elt; [|exact Hst].
  apply Z.ltb_lt in Elt.
  specialize (Hscan cc st Hcc Elt Hst).
  destruct (scan_ (argtop flat cc) st) as [st' returned]. simpl in Hscan.
  destruct returned; [exact Hscan|].
  destruct (length flat <=? cc) eqn:Ele; [exact Hscan|].
  apply Nat.leb_gt in Ele. apply IH; [lia | exact Hscan].
Qed.

Lemma extract_inv (P : scan_state -> Prop) :
  P empty_state ->
  (forall cc st, (1 <= cc <= length flat)%nat ->
     (Z.of_nat (length (hotspots st)) < top_n)%Z -> P st -> P (fst (scan_ (argtop flat cc) st))) ->
  P extract_state_.
Proof.
  intros H0 Hscan. unfold extract_state.
  destruct (length flat =? 0) eqn:E0; [exact H0|]. apply Nat.eqb_neq in E0.
  destruct (Z_lt_le_dec top_n 1) as [Hlt|Hge].
  - cbn [widen]. replace (Z.of_nat (length (hotspots empty_state)) <? top_n)%Z with false.
    + exact H0.
    + symmetry. apply Z.ltb_ge. simpl. lia.
  - apply widen_inv; [exact Hscan | | exact H0].
    unfold initial_candidate_count. lia.
Qed.

Lemma scan_separated cands st :
  ForallOrdPairs (fun a b => Q2R min_separation_frac <= _fractional_distance b a)%R
                 (accepted_frac st) ->
  Forall2 (fun fc h => frac_coord h = map round5 fc) (accepted_frac st) (hotspots st) ->
  ForallOrdPairs (fun a b => Q2R min_separation_frac <= _fractional_distance b a)%R
                 (accepted_frac (fst (scan_ cands st))) /\
  Forall2 (fun fc h => frac_coord h = map round5 fc)
          (accepted_frac (fst (scan_ cands st))) (hotspots (fst (scan_ cands st))).
Proof.
  revert st. induction cands as [|i cands IH]; intros st H1 H2; simpl; [auto|].
  destruct (existsb (Nat.eqb i) (processed st)); [apply IH; auto|].
  destruct (_is_far_enough_frac _ (accepted_frac st) min_separation_frac) eqn:Ef; simpl;
    [|apply IH; auto].
  apply is_far_enough_spec in Ef.
  match goal with
  | |- context [mkState ?p (?acc ++ [?fc0]) (?hs ++ [?h0])] =>
      assert (Hn : ForallOrdPairs (fun a b => Q2R min_separation_frac <= _fractional_distance b a)%R
                                  (acc ++ [fc0]) /\
                   Forall2 (fun fc h => frac_coord h = map round5 fc) (acc ++ [fc0]) (hs ++ [h0]))
  end.
  { split.
    - apply FOP_app_single; [exact H1 | exact Ef].
    - apply Forall2_app; [exact H2 | constructor; [reflexivity | constructor]]. }
  destruct Hn as [Hn1 Hn2].
  destruct (top_n <=? _)%Z; simpl; [split; assumption | apply IH; assumption].
Qed.

Lemma scan_length cands st :
  (Z.of_nat (length (hotspots st)) < top_n)%Z ->
  (Z.of_nat (length (hotspots (fst (scan_ cands st)))) <= top_n)%Z.
Proof.
  revert st. induction cands as [|i cands IH]; intros st H; simpl; [lia|].
  destruct (existsb (Nat.eqb i) (processed st)); [apply IH; exact H|].
  destruct (_is_far_enough_frac _ (accepted_frac st) min_separation_frac); simpl;
    [|apply IH; exact H].
  destruct (top_n <=? _)%Z eqn:E; simpl.
  - rewrite length_app. simpl. lia.
  - apply IH. apply Z.leb_gt in E. exact E.
Qed.

End ExtractProofs.

Section ExtractOrder.
Import Elf Hotspots.

Variable argtop : list Q -> nat -> list nat.
Variable flat : list Q.
Variable grid_dimensions : list nat.
Variable lattice_vectors : list (list Q).
Variable atomic_positions_cart : list (list Q).
Variable top_n : Z.
Variable min_separation_frac : Q.

Local Abbreviation scan_ :=
  (scan flat grid_dimensions lattice_vectors atomic_positions_cart top_n min_separation_frac).

(** Ranks are [1..n]; values never increase along the list; and every grid
    point not yet examined rounds to at most every accepted value. *)
Local Abbreviation desc_inv st :=
  (map rank (hotspots st) = seq 1 (length (hotspots st)) /\
   ForallOrdPairs (fun a b => elf_value b <= elf_value a) (hotspots st) /\
   (forall j, (j < length flat)%nat -> ~ In j (processed st) ->
      Forall (fun h => round5 (nth j flat 0) <= elf_value h) (hotspots st))).

Lemma existsb_eqb_In i l : existsb (Nat.eqb i) l = true <-> In i l.
Proof.
  rewrite existsb_exists. split.
  - intros [y [Hy Hiy]]. apply Nat.eqb_eq in Hiy. subst. exact Hy.
  - intros H. exists i. split; [exact H | apply Nat.eqb_refl].
Qed.

Lemma scan_desc pool :
  Forall (fun i => (i < length flat)%nat) pool ->
  StronglySorted (fun i j => nth j flat 0 <= nth i flat 0) pool ->
  (forall i j, In i pool -> (j < length flat)%nat -> ~ In j pool -> nth j flat 0 <= nth i flat 0) ->
  forall rest pre st, pool = pre ++ rest ->
  (forall x, In x pre -> In x (processed st)) ->
  desc_inv st -> desc_inv (fst (scan_ rest st)).
Proof.
  intros Hb Hs Ht rest. induction rest as [|i rest IH]; intros pre st Hpool Hpre Hinv;
    simpl; [exact Hinv|].
  assert (Hi_pool : In i pool) by (rewrite Hpool; apply in_or_app; right; left; reflexivity).
  assert (Hpool' : pool = (pre ++ [i]) ++ rest) by (rewrite <- app_assoc; exact Hpool).
  destruct (existsb (Nat.eqb i) (processed st)) eqn:Ep.
  { apply (IH (pre ++ [i])); [exact Hpool' | | exact Hinv].
    intros x Hx. apply in_app_or in Hx. destruct Hx as [Hx|[<-|[]]]; [auto|].
    apply existsb_eqb_In. exact Ep. }
  assert (Hnp : ~ In i (processed st)).
  { intro Hin. apply existsb_eqb_In in Hin. congruence. }
  assert (Hpre' : forall x, In x (pre ++ [i]) -> In x (i :: processed st)).
  { intros x Hx. apply in_app_or in Hx. destruct Hx as [Hx|[<-|[]]];
      [right; auto | left; reflexivity]. }
  destruct Hinv as [Hrank [Hfop Hc]].
  destruct (_is_far_enough_frac _ (accepted_frac st) min_separation_frac); simpl.
  2:{ apply (IH (pre ++ [i])); [exact Hpool' | exact Hpre' |].
      split; [exact Hrank | split; [exact Hfop |]].
      intros j Hj Hnj. apply Hc; [exact Hj |]. intro; apply Hnj; right; assumption. }
  assert (Hib : (i < length flat)%nat) by (rewrite Forall_forall in Hb; apply Hb; exact Hi_pool).
  assert (Hle : forall j, (j < length flat)%nat -> ~ In j (i :: processed st) ->
                          nth j flat 0 <= nth i flat 0).
  { intros j Hj Hnj. destruct (in_dec Nat.eq_dec j pool) as [Hjp|Hjp].
    - rewrite Hpool in Hjp. apply in_app_or in Hjp. destruct Hjp as [Hjp|Hjp].
      + exfalso. apply Hnj. right. apply Hpre. exact Hjp.
      + destruct Hjp as [<-|Hjp]; [exfalso; apply Hnj; left; reflexivity|].
        rewrite Hpool in Hs. apply StronglySorted_app_inv_r in Hs.
        inversion Hs as [|a l Hss Hfa]; subst.
        rewrite Forall_forall in Hfa. apply Hfa. exact Hjp.
    - apply Ht; assumption. }
  match goal with
  | |- context [mkState ?p ?acc (?hs ++ [?h0])] =>
      assert (Hn : desc_inv (mkState p acc (hs ++ [h0])))
  end.
  { simpl. split; [|split].
    - rewrite map_app, Hrank, length_app, Nat.add_1_r, seq_S. reflexivity.
    - apply FOP_app_single; [exact Hfop |]. exact (Hc i Hib Hnp).
    - intros j Hj Hnj. apply Forall_app. split.
      + apply Hc; [exact Hj |]. intro; apply Hnj; right; assumption.
      + constructor; [|constructor]. simpl. apply round5_mono. apply Hle; assumption. }
  destruct (top_n <=? _)%Z; simpl; [exact Hn|].
  apply (IH (pre ++ [i])); [exact Hpool' | exact Hpre' | exact Hn].
Qed.

Lemma extract_desc :
  argtop_spec argtop ->
  desc_inv (extract_state argtop flat grid_dimensions lattice_vectors atomic_positions_cart
                          top_n min_separation_frac).
Proof.
  intros Hspec. apply extract_inv.
  - simpl. split; [reflexivity | split; [constructor |]].
    intros. constructor.
  - intros cc st Hcc _ Hst.
    destruct (Hspec flat cc Hcc) as [Hb [Hs Ht]].
    assert (Hss : StronglySorted (fun i j => nth j flat 0 <= nth i flat 0) (argtop flat cc)).
    { apply Sorted_StronglySorted; [| exact Hs].
      intros x y z Hxy Hyz. eapply Qle_trans; eassumption. }
    exact (scan_desc (argtop flat cc) Hb Hss Ht (argtop flat cc) [] st eq_refl
                     (fun x (H : In x []) => False_ind _ H) Hst).
Qed.

End ExtractOrder.

(** ** The deterministic pool ordering meets numpy's contract *)

Section TopDesc.
Import Hotspots.

Variable v : nat -> Q.

Lemma insert_desc_perm i l : Permutation (insert_desc v i l) (i :: l).
Proof.
  induction l as [|j l IH]; simpl; [reflexivity|].
  destruct (Qle_bool (v j) (v i)); [reflexivity|].
  rewrite IH. apply perm_swap.
Qed.

Lemma sort_desc_perm l : Permutation (sort_desc v l) l.
Proof.
  induction l as [|i l IH]; simpl; [reflexivity|].
  rewrite insert_desc_perm, IH. reflexivity.
Qed.

Lemma insert_desc_sorted i l :
  Sorted (fun a b => v b <= v a) l -> Sorted (fun a b => v b <= v a) (insert_desc v i l).
Proof.
  induction l as [|j l IH]; simpl; intros H; [repeat constructor|].
  destruct (Qle_bool (v j) (v i)) eqn:E.
  - constructor; [exact H |]. constructor. apply Qle_bool_iff. exact E.
  - assert (Hij : v i <= v j).
    { apply Qlt_le_weak. apply Qnot_le_lt. intro H'. apply Qle_bool_iff in H'. congruence. }
    inversion H as [|a l' Hl Hhd]; subst. constructor; [apply IH; exact Hl |].
    destruct l as [|k l]; simpl; [constructor; exact Hij |].
    destruct (Qle_bool (v k) (v i)); constructor; [exact Hij |].
    inversion Hhd; assumption.
Qed.

Lemma sort_desc_sorted l : Sorted (fun a b => v b <= v a) (sort_desc v l).
Proof.
  induction l as [|i l IH]; simpl; [constructor|]. apply insert_desc_sorted. exact IH.
Qed.

End TopDesc.

Lemma StronglySorted_app_inv_l {A} (Rel : A -> A -> Prop) l1 l2 :
  StronglySorted Rel (l1 ++ l2) -> StronglySorted Rel l1.
Proof.
  induction l1 as [|a l1 IH]; simpl; intros H; [constructor|].
  inversion H as [|b l Hs Hf]; subst. constructor; [apply IH; exact Hs |].
  rewrite Forall_forall in *. intros x Hx. apply Hf. apply in_or_app. left. exact Hx.
Qed.

Lemma top_desc_spec : Hotspots.argtop_spec Hotspots.top_desc.
Proof.
  intros flat k _. unfold Hotspots.top_desc.
  set (v := fun i => nth i flat 0).
  set (L := Hotspots.sort_desc v (seq 0 (length flat))).
  assert (Hperm : Permutation L (seq 0 (length flat))) by apply sort_desc_perm.
  assert (Hss : StronglySorted (fun a b => v b <= v a) L).
  { apply Sorted_StronglySorted; [| apply sort_desc_sorted].
    intros x y z Hxy Hyz. eapply Qle_trans; eassumption. }
  assert (Hsplit : L = firstn k L ++ skipn k L) by (symmetry; apply firstn_skipn).
  assert (HinL : forall x, In x (firstn k L) -> In x L).
  { intros x Hx. rewrite Hsplit. apply in_or_app. left. exact Hx. }
  split; [|split].
  - apply Forall_forall. intros i Hi. apply HinL in Hi.
    apply (Permutation_in _ Hperm) in Hi. apply in_seq in Hi. lia.
  - apply StronglySorted_Sorted. rewrite Hsplit in Hss.
    exact (StronglySorted_app_inv_l _ _ _ Hss).
  - intros i j Hi Hj Hnj.
    assert (HjL : In j L).
    { apply (Permutation_in _ (Permutation_sym Hperm)). apply in_seq. lia. }
    rewrite Hsplit in HjL. apply in_app_or in HjL. destruct HjL as [HjL|HjL]; [contradiction|].
    rewrite Hsplit in Hss. exact (StronglySorted_app_rel _ _ _ _ _ Hss Hi HjL).
Qed.

Lemma scan_grid_points flat dims lat atoms top_n m cands st :
  Forall (fun fc => exists i, fc = Elf._index_to_frac (Elf.unravel_index i dims) dims)
         (Hotspots.accepted_frac st) ->
  Forall (fun fc => exists i, fc = Elf._index_to_frac (Elf.unravel_index i dims) dims)
         (Hotspots.accepted_frac (fst (Hotspots.scan flat dims lat atoms top_n m cands st))).
Proof.
  revert st. induction cands as [|i cands IH]; intros st H; simpl; [exact H|].
  destruct (existsb (Nat.eqb i) (Hotspots.processed st)); [apply IH; exact H|].
  destruct (Elf._is_far_enough_frac _ _ m); simpl; [|apply IH; exact H].
  assert (Hn : Forall (fun fc => exists i, fc = Elf._index_to_frac (Elf.unravel_index i dims) dims)
                 (Hotspots.accepted_frac st ++
                  [Elf._index_to_frac (Elf.unravel_index i dims) dims])).
  { apply Forall_app. split; [exact H | repeat constructor]. exists i. reflexivity. }
  destruct (top_n <=? _)%Z; simpl; [exact Hn | apply IH; exact Hn].
Qed.

(** ** Claims about the hotspot extractor *)

Section ElfClaims.
Import Elf Hotspots.

(** C1 (amended).  The separation test is applied to the exact
    fractional coordinates of the grid points: the accepted grid points
    of any call are pairwise at periodic fractional distance at least
    [min_separation_frac], and each returned hotspot reports its grid
    point's coordinates rounded to 5 decimals.  On the repository's 4x4x4
    test grid, [top_n = 2] and [min_separation_frac = 0.4] give the values
    [1.0] and [0.98]. *)
Theorem hotspot_grid_points_separated :
  (forall argtop flat dims lat atoms top_n m,
     let st := extract_state argtop flat dims lat atoms top_n m in
     Forall (fun fc => exists i, fc = _index_to_frac (unravel_index i dims) dims) (accepted_frac st) /\
     Forall2 (fun fc h => frac_coord h = map round5 fc) (accepted_frac st) (hotspots st) /\
     (forall i j, i <> j -> (i < length (accepted_frac st))%nat ->
        (j < length (accepted_frac st))%nat ->
        (Q2R m <= _fractional_distance (nth i (accepted_frac st) []) (nth j (accepted_frac st) []))%R)) /\
  Forall2 Qeq
    (map elf_value (_extract_hotspots top_desc test_grid_4x4x4 [4; 4; 4]%nat identity_lattice
                                      [[0; 0; 0]] 2 0.4))
    [1; 0.98].
Proof.
  split.
  - intros argtop flat dims lat atoms top_n m st.
    assert (Hg : Forall (fun fc => exists i, fc = _index_to_frac (unravel_index i dims) dims)
                        (accepted_frac st)).
    { unfold st. apply (extract_inv argtop flat dims lat atoms top_n m
                          (fun s => Forall (fun fc => exists i,
                                       fc = _index_to_frac (unravel_index i dims) dims)
                                       (accepted_frac s))).
      - constructor.
      - intros cc s _ _ Hs. apply scan_grid_points. exact Hs. }
    assert (H : ForallOrdPairs (fun a b => Q2R m <= _fractional_distance b a)%R (accepted_frac st) /\
                Forall2 (fun fc h => frac_coord h = map round5 fc) (accepted_frac st) (hotspots st)).
    { unfold st. apply (extract_inv argtop flat dims lat atoms top_n m
                          (fun s => ForallOrdPairs (fun a b => Q2R m <= _fractional_distance b a)%R
                                                   (accepted_frac s) /\
                                    Forall2 (fun fc h => frac_coord h = map round5 fc)
                                            (accepted_frac s) (hotspots s))).
      - split; constructor.
      - intros cc s _ _ [H1 H2]. apply scan_separated; assumption. }
    destruct H as [Hfop Hf2]. split; [exact Hg | split; [exact Hf2 |]].
    intros i j Hij Hi Hj. destruct (Nat.lt_ge_cases i j) as [Hlt|Hge].
    + rewrite fractional_distance_sym. exact (FOP_nth _ _ [] i j Hfop (conj Hlt Hj)).
    + assert (Hji : (j < i)%nat) by lia.
      exact (FOP_nth _ _ [] j i Hfop (conj Hji Hi)).
  - vm_compute. repeat constructor.
Qed.

(** C1 (counterexample).  The reported, rounded coordinates can be closer
    than [min_separation_frac]: on a 1x1x4 grid with [min_separation_frac
    = 0.333333], the grid points [(0,0,0)] and [(0,0,1/3)] are both
    accepted, but the reported [(0,0,0)] and [(0,0,0.33333)] are at
    distance [0.33333]. *)
Lemma hotspot_rounded_coords_closer :
  let hs := _extract_hotspots top_desc [1; 0.5; 0; 0] [1; 1; 4]%nat identity_lattice [] 2 0.333333 in
  length hs = 2%nat /\
  (_fractional_distance (frac_coord (nth 0 hs default_hotspot))
                        (frac_coord (nth 1 hs default_hotspot)) < Q2R 0.333333)%R.
Proof.
  cbv zeta. split; [vm_compute; reflexivity|].
  assert (H : fractional_distance_sq
                (frac_coord (nth 0 (_extract_hotspots top_desc [1; 0.5; 0; 0] [1; 1; 4]%nat
                                      identity_lattice [] 2 0.333333) default_hotspot))
                (frac_coord (nth 1 (_extract_hotspots top_desc [1; 0.5; 0; 0] [1; 1; 4]%nat
                                      identity_lattice [] 2 0.333333) default_hotspot))
              == 0.33333 * 0.33333) by (vm_compute; reflexivity).
  unfold _fractional_distance. rewrite (Qeq_eqR _ _ H), Q2R_mult, sqrt_square.
  - apply Qlt_Rlt. vm_compute. reflexivity.
  - rewrite <- Q2R_0. apply Qle_Rle. vm_compute. discriminate.
Qed.

End ElfClaims.

Section ElfClaims2.
Import Elf Hotspots.

(** C4.  For any pool ordering meeting numpy's contract and any input,
    the ranks of the returned hotspots are [1, 2, ..., n] in list order,
    and [elf_value] never increases along the list, across pool-widening
    passes too. *)
Theorem hotspot_ranks_and_values argtop (Hspec : argtop_spec argtop)
    flat dims lat atoms top_n m :
  let hs := _extract_hotspots argtop flat dims lat atoms top_n m in
  map rank hs = seq 1 (length hs) /\
  (forall d i j, (i < j < length hs)%nat -> elf_value (nth j hs d) <= elf_value (nth i hs d)).
Proof.
  cbv zeta. unfold _extract_hotspots.
  destruct (extract_desc argtop flat dims lat atoms top_n m Hspec) as [Hr [Hfop _]].
  split; [exact Hr |].
  intros d i j H. exact (FOP_nth _ _ d i j Hfop H).
Qed.

Lemma hotspot_ranks_and_values_witness :
  argtop_spec top_desc /\
  (let hs := _extract_hotspots top_desc test_grid_4x4x4 [4; 4; 4]%nat identity_lattice
                               [[0; 0; 0]] 2 0.4 in
   map rank hs = seq 1 (length hs) /\
   (forall d i j, (i < j < length hs)%nat -> elf_value (nth j hs d) <= elf_value (nth i hs d))).
Proof.
  split; [exact top_desc_spec |].
  exact (hotspot_ranks_and_values top_desc top_desc_spec test_grid_4x4x4 [4; 4; 4]%nat
           identity_lattice [[0; 0; 0]] 2 0.4).
Defined.

(** C6 (amended).  The denominator of [_index_to_frac] is never zero (it
    is at least 1, and exactly 1 on a singleton axis), and on a singleton
    axis the coordinate is the index divided by 1: for the only valid
    index 0 it is 0.0. *)
Theorem index_to_frac_singleton_axis :
  (forall dim, (1 <= frac_denominator dim)%Z) /\
  frac_denominator 1 = 1%Z /\
  (forall index dims k,
     (k < length index)%nat -> (k < length dims)%nat ->
     nth k dims 0%nat = 1%nat -> (nth k index 0%nat < 1)%nat ->
     nth k (_index_to_frac index dims) 0 == 0).
Proof.
  split; [|split; [reflexivity|]].
  - intros dim. unfold frac_denominator. destruct (1 <? dim)%nat eqn:E; [|lia].
    apply Nat.ltb_lt in E. lia.
  - intros index dims k Hi Hd Hdim Hidx. unfold _index_to_frac.
    rewrite (nth_map_combine _ index dims k 0%nat 0%nat 0 Hi Hd).
    rewrite Hdim. replace (nth k index 0%nat) with 0%nat by lia.
    reflexivity.
Qed.

Lemma index_to_frac_singleton_axis_witness :
  (0 < length [0; 3; 1]%nat)%nat /\ (0 < length [1; 5; 2]%nat)%nat /\
  nth 0 [1; 5; 2]%nat 0%nat = 1%nat /\ (nth 0 [0; 3; 1]%nat 0%nat < 1)%nat /\
  nth 0 (_index_to_frac [0; 3; 1]%nat [1; 5; 2]%nat) 0 == 0.
Proof.
  split; [simpl; lia|]. split; [simpl; lia|]. split; [reflexivity|]. split; [simpl; lia|].
  destruct index_to_frac_singleton_axis as [_ [_ H]].
  apply (H [0; 3; 1]%nat [1; 5; 2]%nat 0%nat); simpl; lia.
Defined.

(** C6 (counterexample).  The repository's own test input: on the
    singleton first axis of dimensions [(1, 5, 2)], index [(0, 3, 1)]
    maps to [(0.0, 0.75, 1.0)]; the singleton axis gives 0.0, not 1.0. *)
Lemma index_to_frac_singleton_not_one :
  Forall2 Qeq (_index_to_frac [0; 3; 1]%nat [1; 5; 2]%nat) [0; 0.75; 1] /\
  ~ (nth 0 (_index_to_frac [0; 3; 1]%nat [1; 5; 2]%nat) 0 == 1).
Proof.
  split.
  - vm_compute. repeat constructor.
  - vm_compute. intro H. discriminate H.
Qed.

(** C9.  [_fractional_distance] is symmetric, and it wraps at the cell
    boundary: the distance between (0.98, 0.02, 0.50) and
    (0.01, 0.98, 0.50) is sqrt(0.03^2 + 0.04^2) = 0.05. *)
Theorem fractional_distance_symmetric_and_wraps :
  (forall a b, _fractional_distance a b = _fractional_distance b a) /\
  _fractional_distance [0.98; 0.02; 0.50] [0.01; 0.98; 0.50] = sqrt (0.03 ^ 2 + 0.04 ^ 2) /\
  _fractional_distance [0.98; 0.02; 0.50] [0.01; 0.98; 0.50] = 0.05%R.
Proof.
  assert (H : _fractional_distance [0.98; 0.02; 0.50] [0.01; 0.98; 0.50] = 0.05%R).
  { unfold _fractional_distance.
    assert (Hq : fractional_distance_sq [0.98; 0.02; 0.50] [0.01; 0.98; 0.50] == 0.05 * 0.05)
      by (vm_compute; reflexivity).
    rewrite (Qeq_eqR _ _ Hq), Q2R_mult. apply sqrt_square. lra. }
  split; [exact fractional_distance_sym |]. split; [| exact H].
  rewrite H. replace (0.03 ^ 2 + 0.04 ^ 2)%R with (0.05 * 0.05)%R by (simpl; lra).
  symmetry. apply sqrt_square. lra.
Qed.

End ElfClaims2.

(** ** Claims about [analyze_elfcar_with_hotspots] *)

Section AnalyzeClaims.
Import Elf Hotspots ElfAnalysis.

Lemma analyze_success argtop fs path top_n m tr tr' res :
  analyze_elfcar_with_hotspots argtop fs path top_n m tr = (tr', inr res) ->
  (1 <= top_n)%Z /\
  exists ctx, fs path = inr ctx /\
    result_hotspots res = _extract_hotspots argtop (ctx_flat ctx) (ctx_dims ctx) (ctx_lattice ctx)
                                            (ctx_atoms ctx) top_n m /\
    result_hotspots res <> [].
Proof.
  unfold analyze_elfcar_with_hotspots.
  destruct (top_n <? 1)%Z eqn:E1; [unfold raise; discriminate|].
  apply Z.ltb_ge in E1.
  destruct (Qltb m 0); [unfold raise; discriminate|].
  unfold bind, _load_elf_context.
  destruct (fs path) as [e|ctx]; [discriminate|].
  destruct (_extract_hotspots argtop (ctx_flat ctx) (ctx_dims ctx) (ctx_lattice ctx)
                              (ctx_atoms ctx) top_n m) as [|top rest] eqn:Eh;
    [unfold raise; discriminate|].
  unfold ret. intros H. inversion H; subst. split; [exact E1|].
  exists ctx. simpl. split; [reflexivity | split; [symmetry; exact Eh | discriminate]].
Qed.

(** C3 (amended).  When the call returns, the hotspot sequence is
    non-empty, has at most [top_n] entries, and is ordered highest
    [elf_value] first.  It can be shorter than [top_n]. *)
Theorem analyze_hotspots_at_most_top_n argtop (Hspec : argtop_spec argtop)
    fs path top_n m tr tr' res :
  analyze_elfcar_with_hotspots argtop fs path top_n m tr = (tr', inr res) ->
  let hs := result_hotspots res in
  (1 <= length hs)%nat /\ (Z.of_nat (length hs) <= top_n)%Z /\
  (forall d i j, (i < j < length hs)%nat -> elf_value (nth j hs d) <= elf_value (nth i hs d)).
Proof.
  intros H. destruct (analyze_success argtop fs path top_n m tr tr' res H)
    as [Htop [ctx [_ [Hres Hne]]]].
  cbv zeta. split; [|split].
  - destruct (result_hotspots res); [congruence | simpl; lia].
  - rewrite Hres. unfold _extract_hotspots.
    apply (extract_inv argtop (ctx_flat ctx) (ctx_dims ctx) (ctx_lattice ctx) (ctx_atoms ctx)
             top_n m (fun s => Z.of_nat (length (hotspots s)) <= top_n)%Z).
    + simpl. lia.
    + intros cc s _ Hlt _. apply scan_length. exact Hlt.
  - rewrite Hres. unfold _extract_hotspots.
    destruct (extract_desc argtop (ctx_flat ctx) (ctx_dims ctx) (ctx_lattice ctx) (ctx_atoms ctx)
                top_n m Hspec) as [_ [Hfop _]].
    intros d i j Hij. exact (FOP_nth _ _ d i j Hfop Hij).
Qed.

Lemma analyze_hotspots_at_most_top_n_witness :
  argtop_spec top_desc /\
  analyze_elfcar_with_hotspots top_desc test_fs "ELFCAR" 2 0.4 [] =
    ([LoadElfContext "ELFCAR"],
     inr (result_of (analyze_elfcar_with_hotspots top_desc test_fs "ELFCAR" 2 0.4 []))) /\
  (let hs := result_hotspots
               (result_of (analyze_elfcar_with_hotspots top_desc test_fs "ELFCAR" 2 0.4 [])) in
   (1 <= length hs)%nat /\ (Z.of_nat (length hs) <= 2)%Z /\
   (forall d i j, (i < j < length hs)%nat -> elf_value (nth j hs d) <= elf_value (nth i hs d))).
Proof.
  assert (H : analyze_elfcar_with_hotspots top_desc test_fs "ELFCAR" 2 0.4 [] =
                ([LoadElfContext "ELFCAR"],
                 inr (result_of (analyze_elfcar_with_hotspots top_desc test_fs "ELFCAR" 2 0.4 []))))
    by (vm_compute; reflexivity).
  split; [exact top_desc_spec | split; [exact H |]].
  exact (analyze_hotspots_at_most_top_n top_desc top_desc_spec test_fs "ELFCAR" 2 0.4 [] _ _ H).
Defined.

(** C3 (counterexample).  On a one-point grid with [top_n = 2] and
    [min_separation_frac = 0], the call succeeds with a single hotspot. *)
Lemma analyze_returns_fewer_than_top_n :
  match snd (analyze_elfcar_with_hotspots top_desc single_point_fs "ELFCAR" 2 0 []) with
  | inr res => length (result_hotspots res) = 1%nat
  | inl _ => False
  end.
Proof. vm_compute. reflexivity. Qed.

(** C5.  With [top_n < 1] or [min_separation_frac < 0] the call raises
    [ValueError] at once: the ELFCAR is never read (no event is recorded)
    and no result is produced. *)
Theorem analyze_validates_first argtop fs path top_n m tr :
  (top_n < 1)%Z \/ m < 0 ->
  exists msg, analyze_elfcar_with_hotspots argtop fs path top_n m tr = (tr, inl (ValueError msg)).
Proof.
  intros H. unfold analyze_elfcar_with_hotspots.
  destruct (top_n <? 1)%Z eqn:E1; [eexists; reflexivity|].
  apply Z.ltb_ge in E1.
  destruct H as [H|H]; [lia|].
  replace (Qltb m 0) with true by (symmetry; apply Qltb_true; exact H).
  eexists. reflexivity.
Qed.

Lemma analyze_validates_first_witness :
  ((0 < 1)%Z \/ 0.05 < 0) /\
  (exists msg, analyze_elfcar_with_hotspots top_desc test_fs "ELFCAR" 0 0.05 [] =
               ([], inl (ValueError msg))) /\
  ((1 < 1)%Z \/ -0.1 < 0) /\
  (exists msg, analyze_elfcar_with_hotspots top_desc test_fs "ELFCAR" 1 (-0.1) [] =
               ([], inl (ValueError msg))).
Proof.
  split; [left; lia|]. split.
  - apply analyze_validates_first. left. lia.
  - split; [right; reflexivity|].
    apply analyze_validates_first. right. reflexivity.
Defined.

End AnalyzeClaims.

(* ------------------------------------------------------------------ *)
(** ** Bond buckets *)

Section BucketLemmas.
Import Elf Bonds.

Lemma key_eqb_spec k1 k2 : key_eqb k1 k2 = true <-> k1 = k2.
Proof.
  destruct k1 as [t1 l1], k2 as [t2 l2]. unfold key_eqb; simpl.
  destruct (string_dec t1 t2) as [Et|Et]; [destruct (Req_EM_T l1 l2) as [El|El]|].
  - subst. tauto.
  - split; [discriminate | intros H; inversion H; contradiction].
  - split; [discriminate | intros H; inversion H; contradiction].
Qed.

Lemma within_tolerance_spec t len tol k :
  within_tolerance t len tol k = true <-> fst k = t /\ (Rabs (snd k - len) <= tol)%R.
Proof.
  unfold within_tolerance. rewrite andb_true_iff, String.eqb_eq.
  destruct (Rle_dec (Rabs (snd k - len)) tol) as [Hle|Hle];
    split; intros [H1 H2]; auto; try discriminate; contradiction.
Qed.

Lemma resolve_skip pre rest t len tol :
  Forall (fun e => within_tolerance t len tol (fst e) = false) pre ->
  _resolve_bond_key (pre ++ rest) t len tol = _resolve_bond_key rest t len tol.
Proof.
  induction 1 as [|[k c] pre' Hk _ IH]; [reflexivity|].
  simpl in *. rewrite Hk. exact IH.
Qed.

Lemma dict_get_skip pre rest k d :
  Forall (fun e => key_eqb (fst e) k = false) pre ->
  dict_get (pre ++ rest) k d = dict_get rest k d.
Proof.
  induction 1 as [|[k' c] pre' Hk _ IH]; [reflexivity|].
  simpl in *. rewrite Hk. exact IH.
Qed.

Lemma dict_set_skip pre rest k v :
  Forall (fun e => key_eqb (fst e) k = false) pre ->
  dict_set (pre ++ rest) k v = pre ++ dict_set rest k v.
Proof.
  induction 1 as [|[k' c] pre' Hk _ IH]; [reflexivity|].
  simpl in *. rewrite Hk, IH. reflexivity.
Qed.

Lemma key_eqb_refl k : key_eqb k k = true.
Proof. apply key_eqb_spec. reflexivity. Qed.

Lemma dict_get_set b k v d : dict_get (dict_set b k v) k d = v.
Proof.
  induction b as [|[k' c] b IH]; simpl.
  - rewrite key_eqb_refl. reflexivity.
  - destruct (key_eqb k' k) eqn:E; simpl; rewrite E; [reflexivity | exact IH].
Qed.

Lemma dict_set_In b k v : In k (map fst (dict_set b k v)).
Proof.
  induction b as [|[k' c] b IH]; simpl.
  - left. reflexivity.
  - destruct (key_eqb k' k) eqn:E; simpl.
    + left. apply key_eqb_spec. exact E.
    + right. exact IH.
Qed.

(** The key [_resolve_bond_key] picks has the bond's type and lies within
    the tolerance (at least [1/2000] when it is a fresh rounded key). *)
Lemma resolve_within b t len tol :
  (1 / 2000 <= tol)%R ->
  fst (_resolve_bond_key b t len tol) = t /\
  (Rabs (snd (_resolve_bond_key b t len tol) - len) <= tol)%R.
Proof.
  intros Htol. induction b as [|[k c] b IH]; simpl.
  - split; [reflexivity|]. pose proof (round_R_3_bound len). lra.
  - destruct (within_tolerance t len tol k) eqn:E; [apply within_tolerance_spec; exact E | exact IH].
Qed.

Lemma default_tolerance_ge : (1 / 2000 <= default_tolerance)%R.
Proof. unfold default_tolerance. lra. Qed.

Lemma not_within_key_neq t len k k' :
  ~ (fst k = t /\ (Rabs (snd k - len) <= default_tolerance)%R) ->
  fst k' = t -> (Rabs (snd k' - len) <= default_tolerance)%R ->
  key_eqb k k' = false.
Proof.
  intros Hn H1 H2. destruct (key_eqb k k') eqn:E; [|reflexivity].
  apply key_eqb_spec in E. subst. exfalso. apply Hn. auto.
Qed.

Lemma not_within_false t len k :
  ~ (fst k = t /\ (Rabs (snd k - len) <= default_tolerance)%R) ->
  within_tolerance t len default_tolerance k = false.
Proof.
  intros Hn. destruct (within_tolerance t len default_tolerance k) eqn:E; [|reflexivity].
  apply within_tolerance_spec in E. contradiction.
Qed.

(** The merge case of the bucket update. *)
Lemma add_bond_merge pre k c post t len :
  fst k = t -> (Rabs (snd k - len) <= default_tolerance)%R ->
  Forall (fun e => ~ (fst (fst e) = t /\ (Rabs (snd (fst e) - len) <= default_tolerance)%R)) pre ->
  add_bond (pre ++ (k, c) :: post) t len = pre ++ (k, S c) :: post.
Proof.
  intros H1 H2 Hpre. unfold add_bond.
  assert (Hk : _resolve_bond_key (pre ++ (k, c) :: post) t len default_tolerance = k).
  { rewrite resolve_skip.
    - simpl. replace (within_tolerance t len default_tolerance k) with true
        by (symmetry; apply within_tolerance_spec; auto). reflexivity.
    - eapply Forall_impl; [|exact Hpre]. intros e He. apply not_within_false. exact He. }
  rewrite Hk.
  assert (Hne : Forall (fun e => key_eqb (fst e) k = false) pre).
  { eapply Forall_impl; [|exact Hpre]. intros e He. eapply not_within_key_neq; eauto. }
  rewrite dict_get_skip, dict_set_skip by exact Hne. simpl.
  rewrite key_eqb_refl. reflexivity.
Qed.

(** The fresh-bucket case of the bucket update. *)
Lemma add_bond_fresh b t len :
  Forall (fun e => ~ (fst (fst e) = t /\ (Rabs (snd (fst e) - len) <= default_tolerance)%R)) b ->
  add_bond b t len = b ++ [((t, round_R 3 len), 1%nat)].
Proof.
  intros Hb. unfold add_bond.
  assert (Hk : _resolve_bond_key b t len default_tolerance = (t, round_R 3 len)).
  { rewrite <- (app_nil_r b) at 1. rewrite resolve_skip; [reflexivity|].
    eapply Forall_impl; [|exact Hb]. intros e He. apply not_within_false. exact He. }
  rewrite Hk.
  assert (Hne : Forall (fun e => key_eqb (fst e) (t, round_R 3 len) = false) b).
  { eapply Forall_impl; [|exact Hb]. intros e He. eapply not_within_key_neq; [exact He | reflexivity |].
    simpl. pose proof (round_R_3_bound len). pose proof default_tolerance_ge. lra. }
  rewrite <- (app_nil_r b) at 1 2.
  rewrite dict_get_skip, dict_set_skip by exact Hne. reflexivity.
Qed.

Lemma insert_by_length_hd x y l :
  (length_ y <= length_ x)%R -> HdRel (fun a b => (length_ a <= length_ b)%R) y l ->
  HdRel (fun a b => (length_ a <= length_ b)%R) y (insert_by_length x l).
Proof.
  intros Hyx Hd. destruct l as [|z l]; simpl.
  - constructor. exact Hyx.
  - destruct (Rle_dec (length_ x) (length_ z)); constructor; [exact Hyx|].
    inversion Hd. assumption.
Qed.

Lemma insert_by_length_sorted x l :
  Sorted (fun a b => (length_ a <= length_ b)%R) l ->
  Sorted (fun a b => (length_ a <= length_ b)%R) (insert_by_length x l).
Proof.
  induction 1 as [|y l Hl IH Hd]; simpl.
  - repeat constructor.
  - destruct (Rle_dec (length_ x) (length_ y)) as [Hxy|Hxy].
    + constructor; [constructor; assumption | constructor; exact Hxy].
    + constructor; [exact IH|]. apply insert_by_length_hd; [lra | exact Hd].
Qed.

Lemma dict_to_summaries_sorted data :
  Sorted (fun a b => (length_ a <= length_ b)%R) (_dict_to_summaries data).
Proof.
  unfold _dict_to_summaries.
  induction (map (fun '(key, c) => mkSummary (fst key) (snd key) c) data) as [|x l IH]; simpl.
  - constructor.
  - apply insert_by_length_sorted. exact IH.
Qed.

Lemma norm_eq v (r : Q) :
  fold_right Qplus 0 (map (fun x => x * x) v) == r * r -> 0 <= r -> norm v = Q2R r.
Proof.
  intros H Hr. unfold norm. rewrite (Qeq_eqR _ _ H), Q2R_mult.
  apply sqrt_square. rewrite <- Q2R_0. apply Qle_Rle. exact Hr.
Qed.

End BucketLemmas.

Section BondClaims.
Import Elf Bonds.

(** C7.  Adding a bond of type [t] and length [len] to a bucket: when the
    first entry of type [t] whose representative lies within [0.008] of
    [len] is [(k, c)], that entry's count becomes [c + 1] and nothing else
    changes (no new entry, [k] kept); when no entry qualifies, the entry
    [((t, round(len, 3)), 1)] is appended.  Example: [2.006] joins
    [("interlayer"%string, 2.000)]. *)
Theorem add_bond_merges_first_within_tolerance :
  (forall pre k c post t len,
     fst k = t -> (Rabs (snd k - len) <= default_tolerance)%R ->
     Forall (fun e => ~ (fst (fst e) = t /\ (Rabs (snd (fst e) - len) <= default_tolerance)%R)) pre ->
     add_bond (pre ++ (k, c) :: post) t len = pre ++ (k, S c) :: post) /\
  (forall b t len,
     Forall (fun e => ~ (fst (fst e) = t /\ (Rabs (snd (fst e) - len) <= default_tolerance)%R)) b ->
     add_bond b t len = b ++ [((t, round_R 3 len), 1%nat)]) /\
  add_bond [(("interlayer"%string, 2%R), 1%nat)] "interlayer"%string 2.006%R =
    [(("interlayer"%string, 2%R), 2%nat)].
Proof.
  split; [exact add_bond_merge|]. split; [exact add_bond_fresh|].
  apply (add_bond_merge [] ("interlayer"%string, 2%R) 1%nat [] "interlayer"%string 2.006%R);
    [reflexivity | | constructor].
  unfold default_tolerance. simpl. unfold Rabs. destruct (Rcase_abs _); lra.
Qed.

Lemma add_bond_merges_first_within_tolerance_witness :
  add_bond [(("in-plane"%string, 3%R), 4%nat); (("interlayer"%string, 2%R), 1%nat)]
           "interlayer"%string 2.003%R =
    [(("in-plane"%string, 3%R), 4%nat); (("interlayer"%string, 2%R), 2%nat)] /\
  add_bond [(("interlayer"%string, 2%R), 1%nat)] "in-plane"%string 2.003%R =
    [(("interlayer"%string, 2%R), 1%nat); (("in-plane"%string, round_R 3 2.003%R), 1%nat)].
Proof.
  destruct add_bond_merges_first_within_tolerance as [Hm [Hf _]]. split.
  - apply (Hm [(("in-plane"%string, 3%R), 4%nat)] ("interlayer"%string, 2%R) 1%nat []
              "interlayer"%string 2.003%R).
    + reflexivity.
    + unfold default_tolerance. simpl. unfold Rabs. destruct (Rcase_abs _); lra.
    + constructor; [|constructor]. simpl. intros [H _]. discriminate.
  - apply Hf. constructor; [|constructor]. simpl. intros [H _]. discriminate.
Defined.

(** C8.  Every one of the six summary sequences of [analyze_structure] is
    sorted by ascending length; and a bond added to a bucket is counted
    under a key of its own type whose representative length is within
    [0.008] of the bond's length. *)
Theorem bond_summaries_sorted_and_within_tolerance get_neighbors get_fractional_coords
    primitive_standard supercell_sites (s : Structure) (max_distance : Q) :
  (let r := analyze_structure get_neighbors get_fractional_coords primitive_standard
              supercell_sites s max_distance in
   Forall (Sorted (fun a b => (length_ a <= length_ b)%R))
     [unit_cell_in_plane r; unit_cell_interlayer r; primitive_in_plane r;
      primitive_interlayer r; supercell_in_plane r; supercell_interlayer r]) /\
  (forall b t len,
     let k := _resolve_bond_key b t len default_tolerance in
     fst k = t /\ (Rabs (snd k - len) <= default_tolerance)%R /\
     In k (map fst (add_bond b t len)) /\
     dict_get (add_bond b t len) k 0 = S (dict_get b k 0)).
Proof.
  split.
  - unfold analyze_structure.
    repeat match goal with |- context [match ?x with pair _ _ => _ end] => destruct x end.
    repeat constructor; apply dict_to_summaries_sorted.
  - intros b t len k. destruct (resolve_within b t len default_tolerance default_tolerance_ge)
      as [H1 H2].
    split; [exact H1 | split; [exact H2|]]. unfold add_bond. fold k.
    split; [apply dict_set_In | apply dict_get_set].
Qed.

(** C10.  [_count_layers] on a structure with no site returns [1]. *)
Theorem count_layers_no_sites (l : list (list Q)) (vacuum_direction : nat) (gap_threshold : Q) :
  _count_layers (mkStructure l []) vacuum_direction gap_threshold = 1%nat.
Proof. reflexivity. Qed.

(** C2 (the code departs from the documented 3x3x1 supercell).  For the
    lattice [diag(3, 3, 20)] the vacuum axis is the third one, and the
    lattice [_build_supercell] hands to [make_supercell] has the in-plane
    vectors tripled but the vacuum vector [a + b + c = (3, 3, 20)], not
    [c = (0, 0, 20)]: the scaling row of the vacuum axis is [[1, 1, 1]]. *)
Theorem supercell_vacuum_vector_sheared supercell_sites :
  let s0 := mkStructure [[3; 0; 0]; [0; 3; 0]; [0; 0; 20]] [] in
  vacuum_direction s0 = 2%nat /\
  Forall2 (Forall2 Qeq) (lattice (_build_supercell supercell_sites s0 (vacuum_direction s0)))
          [[9; 0; 0]; [0; 9; 0]; [3; 3; 20]] /\
  ~ Forall2 Qeq (nth 2 (lattice (_build_supercell supercell_sites s0 (vacuum_direction s0))) [])
            [0; 0; 20].
Proof.
  intros s0.
  assert (Hvd : vacuum_direction s0 = 2%nat).
  { unfold vacuum_direction. cbn [lattice map s0].
    rewrite (norm_eq [3; 0; 0] 3), (norm_eq [0; 3; 0] 3), (norm_eq [0; 0; 20] 20)
      by (vm_compute; first [reflexivity | discriminate]).
    unfold argmax, argmax_aux, Rltb.
    destruct (Rlt_dec (Q2R 3) (Q2R 3)) as [H|_]; [lra|].
    destruct (Rlt_dec (Q2R 3) (Q2R 20)) as [_|H]; [reflexivity | lra]. }
  rewrite Hvd. split; [reflexivity|]. split.
  - vm_compute. repeat constructor.
  - vm_compute. intros H. inversion H as [|x y l l' Hxy]. discriminate.
Qed.

End BondClaims.

(* ------------------------------------------------------------------ *)
(** ** Further properties of [analysis/elf.py] *)

Section HotspotPrefix.
Import Elf Hotspots.

Variable argtop : list Q -> nat -> list nat.
Variable flat : list Q.
Variable dims : list nat.
Variable lat : list (list Q).
Variable atoms : list (list Q).
Variable top_n : Z.
Variable m : Q.

Local Abbreviation scan_ := (scan flat dims lat atoms top_n m).
Local Abbreviation widen_ := (widen argtop flat dims lat atoms top_n m).

(** The loop only ever appends hotspots. *)
Lemma scan_prefix cands st :
  exists tail, hotspots (fst (scan_ cands st)) = hotspots st ++ tail.
Proof.
  revert st. induction cands as [|i cands IH]; intros st; simpl.
  - exists []. rewrite app_nil_r. reflexivity.
  - destruct (existsb (Nat.eqb i) (processed st)); [apply IH|].
    destruct (_is_far_enough_frac _ (accepted_frac st) m); simpl;
      [| match goal with |- context [scan_ cands ?s] =>
           destruct (IH s) as [t Ht]; exists t; exact Ht end].
    destruct (top_n <=? _)%Z; simpl.
    + eexists. reflexivity.
    + match goal with |- context [scan_ cands ?s] => destruct (IH s) as [tail Ht] end.
      rewrite Ht. simpl. eexists. rewrite <- app_assoc. reflexivity.
Qed.

Lemma widen_prefix fuel cc st :
  (1 <= cc <= length flat)%nat -> exists tail, hotspots (widen_ fuel cc st) = hotspots st ++ tail.
Proof.
  intros Hcc.
  apply (widen_inv argtop flat dims lat atoms top_n m
           (fun s => exists tail, hotspots s = hotspots st ++ tail)); [| exact Hcc |].
  - intros cc' s _ _ [t1 H1]. destruct (scan_prefix (argtop flat cc') s) as [t2 H2].
    rewrite H2, H1, <- app_assoc. eexists. reflexivity.
  - exists []. rewrite app_nil_r. reflexivity.
Qed.

Lemma widen_step_prefix fuel cc st :
  (1 <= cc <= length flat)%nat -> (Z.of_nat (length (hotspots st)) < top_n)%Z ->
  exists tail, hotspots (widen_ (S fuel) cc st) = hotspots (fst (scan_ (argtop flat cc) st)) ++ tail.
Proof.
  intros Hcc Hlt. cbn [widen].
  replace (Z.of_nat (length (hotspots st)) <? top_n)%Z with true by (symmetry; apply Z.ltb_lt; exact Hlt).
  destruct (scan_ (argtop flat cc) st) as [st' returned]. simpl fst.
  destruct returned; [exists []; rewrite app_nil_r; reflexivity|].
  destruct (length flat <=? cc)%nat eqn:E; [exists []; rewrite app_nil_r; reflexivity|].
  apply Nat.leb_gt in E. apply widen_prefix. lia.
Qed.

(** From an empty state the first index of the pool is always accepted. *)
Lemma scan_first i rest :
  exists h tail, hotspots (fst (scan_ (i :: rest) empty_state)) = h :: tail /\
                 elf_value h = round5 (nth i flat 0).
Proof.
  simpl. destruct (top_n <=? 1)%Z; simpl.
  - eexists. eexists. split; reflexivity.
  - match goal with |- context [scan_ rest ?s] => destruct (scan_prefix rest s) as [tail Ht] end.
    rewrite Ht. simpl. eexists. eexists. split; reflexivity.
Qed.

Lemma initial_candidate_count_range :
  (1 <= top_n)%Z -> flat <> [] -> (1 <= initial_candidate_count flat top_n <= length flat)%nat.
Proof.
  intros Ht Hne. unfold initial_candidate_count.
  destruct flat as [|x l]; [congruence|]. simpl length. lia.
Qed.

(** With a non-empty grid and [top_n >= 1], the first hotspot is the
    first index of the initial pool. *)
Lemma extract_head :
  argtop_size_spec argtop -> (1 <= top_n)%Z -> flat <> [] ->
  exists i rest h tail,
    argtop flat (initial_candidate_count flat top_n) = i :: rest /\
    _extract_hotspots argtop flat dims lat atoms top_n m = h :: tail /\
    elf_value h = round5 (nth i flat 0).
Proof.
  intros Hsize Ht Hne. unfold _extract_hotspots, extract_state.
  replace (length flat =? 0)%nat with false by (destruct flat; [congruence | reflexivity]).
  pose proof (initial_candidate_count_range Ht Hne) as Hcc.
  set (cc := initial_candidate_count flat top_n) in *.
  destruct (argtop flat cc) as [|i rest] eqn:Ep.
  { pose proof (Hsize flat cc Hcc) as Hl. rewrite Ep in Hl. simpl in Hl. lia. }
  destruct (widen_step_prefix (length flat) cc empty_state Hcc) as [t1 H1]; [simpl; lia|].
  rewrite Ep in H1. destruct (scan_first i rest) as [h [t2 [H2 Hv]]].
  exists i, rest, h, (t2 ++ t1). split; [reflexivity|]. split; [|exact Hv].
  rewrite H1, H2. reflexivity.
Qed.

(** The head of a pool meeting numpy's contract holds the grid maximum. *)
Lemma pool_head_max cc i rest :
  argtop_spec argtop -> (1 <= cc <= length flat)%nat -> argtop flat cc = i :: rest ->
  (i < length flat)%nat /\ forall j, (j < length flat)%nat -> nth j flat 0 <= nth i flat 0.
Proof.
  intros Hspec Hcc Ep. destruct (Hspec flat cc Hcc) as [Hb [Hs Ht]].
  rewrite Ep in Hb, Hs, Ht.
  split; [inversion Hb; assumption|].
  intros j Hj. destruct (in_dec Nat.eq_dec j (i :: rest)) as [Hin|Hout].
  - destruct Hin as [<-|Hin]; [apply Qle_refl|].
    apply Sorted_StronglySorted in Hs; [|intros x y z Hxy Hyz; eapply Qle_trans; eassumption].
    inversion Hs as [|a l Hss Hf]; subst. rewrite Forall_forall in Hf. apply Hf. exact Hin.
  - apply Ht; [left; reflexivity | exact Hj | exact Hout].
Qed.

End HotspotPrefix.

Lemma top_desc_size_spec : Hotspots.argtop_size_spec Hotspots.top_desc.
Proof.
  intros flat k Hk. unfold Hotspots.top_desc.
  rewrite length_firstn, (Permutation_length (sort_desc_perm _ _)), length_seq. lia.
Qed.

Section EntryExtras.
Import Elf Hotspots ElfAnalysis ElfDirectory.

Lemma analyze_unfold argtop fs path top_n m tr ctx :
  (1 <= top_n)%Z -> 0 <= m -> fs path = inr ctx ->
  analyze_elfcar_with_hotspots argtop fs path top_n m tr =
  match _extract_hotspots argtop (ctx_flat ctx) (ctx_dims ctx) (ctx_lattice ctx) (ctx_atoms ctx)
                          top_n m with
  | [] => (tr ++ [LoadElfContext path], inl (RuntimeError "No ELF hotspots could be determined"))
  | top :: rest =>
      (tr ++ [LoadElfContext path],
       inr (mkResult (mkMetrics (elf_value top) (frac_coord top) (cart_coord top)
                                (shortest_distance top) (round5 (mean (ctx_flat ctx))))
                     (top :: rest)))
  end.
Proof.
  intros Ht Hm Hfs. unfold analyze_elfcar_with_hotspots.
  replace (top_n <? 1)%Z with false by (symmetry; apply Z.ltb_ge; lia).
  replace (Qltb m 0) with false by (symmetry; apply Qltb_false; exact Hm).
  unfold bind, _load_elf_context. rewrite Hfs.
  destruct (_extract_hotspots _ _ _ _ _ _ _); reflexivity.
Qed.

(** X1: [analyze_elfcar] always reads the file (its fixed arguments pass
    validation), and on a non-empty grid it succeeds and reports as
    [max_elf] the grid's largest value rounded to 5 decimals. *)
Theorem analyze_elfcar_reports_grid_max argtop (Hspec : argtop_spec argtop)
    (Hsize : argtop_size_spec argtop) fs path tr ctx :
  fs path = inr ctx -> ctx_flat ctx <> [] ->
  (forall fs' path' tr', fst (analyze_elfcar argtop fs' path' tr') = tr' ++ [LoadElfContext path']) /\
  exists mt i,
    analyze_elfcar argtop fs path tr = (tr ++ [LoadElfContext path], inr mt) /\
    (i < length (ctx_flat ctx))%nat /\
    max_elf mt = round5 (nth i (ctx_flat ctx) 0) /\
    (forall j, (j < length (ctx_flat ctx))%nat -> nth j (ctx_flat ctx) 0 <= nth i (ctx_flat ctx) 0).
Proof.
  intros Hfs Hne. split.
  - intros fs' path' tr'. unfold analyze_elfcar, analyze_elfcar_with_hotspots.
    change (1 <? 1)%Z with false. change (Qltb 0 0) with false.
    unfold bind, _load_elf_context.
    destruct (fs' path') as [e|c]; [reflexivity|].
    destruct (_extract_hotspots _ _ _ _ _ _ _); reflexivity.
  - destruct (extract_head argtop (ctx_flat ctx) (ctx_dims ctx) (ctx_lattice ctx) (ctx_atoms ctx) 1 0
                Hsize ltac:(lia) Hne) as [i [rest [h [tail [Ep [Eh Hv]]]]]].
    destruct (pool_head_max argtop (ctx_flat ctx) _ i rest Hspec
                (initial_candidate_count_range (ctx_flat ctx) 1 ltac:(lia) Hne) Ep) as [Hi Hmax].
    unfold analyze_elfcar, bind.
    rewrite (analyze_unfold argtop fs path 1 0 tr ctx ltac:(lia) (Qle_refl 0) Hfs), Eh.
    eexists. exists i. split; [reflexivity|]. split; [exact Hi|]. split; [exact Hv | exact Hmax].
Qed.

Lemma analyze_elfcar_reports_grid_max_witness :
  exists mt i,
    analyze_elfcar top_desc test_fs "ELFCAR" [] = ([] ++ [LoadElfContext "ELFCAR"], inr mt) /\
    (i < length test_grid_4x4x4)%nat /\
    max_elf mt = round5 (nth i test_grid_4x4x4 0) /\
    (forall j, (j < length test_grid_4x4x4)%nat -> nth j test_grid_4x4x4 0 <= nth i test_grid_4x4x4 0).
Proof.
  apply (analyze_elfcar_reports_grid_max top_desc top_desc_spec top_desc_size_spec test_fs "ELFCAR" []
           (mkContext test_grid_4x4x4 [4; 4; 4]%nat identity_lattice [])).
  - reflexivity.
  - unfold test_grid_4x4x4. simpl. discriminate.
Defined.

(** X2: once the arguments are valid and the ELFCAR is read,
    [analyze_elfcar_with_hotspots] raises [RuntimeError] exactly when the
    grid is empty; on a non-empty grid it always succeeds. *)
Theorem analyze_fails_only_on_empty_grid argtop (Hsize : argtop_size_spec argtop)
    fs path top_n m tr ctx :
  (1 <= top_n)%Z -> 0 <= m -> fs path = inr ctx ->
  (ctx_flat ctx = [] ->
     exists msg, analyze_elfcar_with_hotspots argtop fs path top_n m tr =
                 (tr ++ [LoadElfContext path], inl (RuntimeError msg))) /\
  (ctx_flat ctx <> [] ->
     exists res, analyze_elfcar_with_hotspots argtop fs path top_n m tr =
                 (tr ++ [LoadElfContext path], inr res)).
Proof.
  intros Ht Hm Hfs. rewrite (analyze_unfold argtop fs path top_n m tr ctx Ht Hm Hfs). split.
  - intros He. unfold _extract_hotspots, extract_state. rewrite He. simpl.
    eexists. reflexivity.
  - intros Hne.
    destruct (extract_head argtop (ctx_flat ctx) (ctx_dims ctx) (ctx_lattice ctx) (ctx_atoms ctx)
                top_n m Hsize Ht Hne) as [i [rest [h [tail [_ [Eh _]]]]]].
    rewrite Eh. eexists. reflexivity.
Qed.

Lemma analyze_fails_only_on_empty_grid_witness :
  (exists msg, analyze_elfcar_with_hotspots top_desc (fun _ => inr (mkContext [] [0; 4; 4]%nat identity_lattice []))
                 "ELFCAR" 3 0.05 [] = ([] ++ [LoadElfContext "ELFCAR"], inl (RuntimeError msg))) /\
  (exists res, analyze_elfcar_with_hotspots top_desc test_fs "ELFCAR" 3 0.05 [] =
                 ([] ++ [LoadElfContext "ELFCAR"], inr res)).
Proof.
  split.
  - apply (analyze_fails_only_on_empty_grid top_desc top_desc_size_spec
             (fun _ => inr (mkContext [] [0; 4; 4]%nat identity_lattice [])) "ELFCAR" 3 0.05 []
             (mkContext [] [0; 4; 4]%nat identity_lattice [])); [lia | discriminate | reflexivity | reflexivity].
  - apply (analyze_fails_only_on_empty_grid top_desc top_desc_size_spec test_fs "ELFCAR" 3 0.05 []
             (mkContext test_grid_4x4x4 [4; 4; 4]%nat identity_lattice [])); [lia | discriminate | reflexivity |].
    unfold test_grid_4x4x4. simpl. discriminate.
Defined.

(** X3: the metrics of a successful call describe the first hotspot, whose
    [elf_value] is the largest of the returned list, and [average_elf] is
    the grid mean rounded to 5 decimals. *)
Theorem analyze_metrics_describe_top_hotspot argtop (Hspec : argtop_spec argtop)
    fs path top_n m tr tr' res ctx :
  fs path = inr ctx ->
  analyze_elfcar_with_hotspots argtop fs path top_n m tr = (tr', inr res) ->
  exists top rest,
    result_hotspots res = top :: rest /\
    max_elf (metrics res) = elf_value top /\
    max_frac_coord (metrics res) = frac_coord top /\
    max_cart_coord (metrics res) = cart_coord top /\
    metrics_shortest_distance (metrics res) = shortest_distance top /\
    average_elf (metrics res) = round5 (mean (ctx_flat ctx)) /\
    Forall (fun h => elf_value h <= max_elf (metrics res)) (result_hotspots res).
Proof.
  intros Hfs H.
  destruct (analyze_success argtop fs path top_n m tr tr' res H) as [Ht _].
  assert (Hm : 0 <= m).
  { unfold analyze_elfcar_with_hotspots in H.
    destruct (top_n <? 1)%Z; [discriminate|].
    destruct (Qltb m 0) eqn:E; [discriminate | apply Qltb_false; exact E]. }
  rewrite (analyze_unfold argtop fs path top_n m tr ctx Ht Hm Hfs) in H.
  destruct (extract_desc argtop (ctx_flat ctx) (ctx_dims ctx) (ctx_lattice ctx) (ctx_atoms ctx)
              top_n m Hspec) as [_ [Hfop _]].
  unfold _extract_hotspots in H.
  destruct (hotspots (extract_state argtop (ctx_flat ctx) (ctx_dims ctx) (ctx_lattice ctx)
                                    (ctx_atoms ctx) top_n m)) as [|top rest]; [discriminate|].
  inversion H; subst. simpl.
  exists top, rest. repeat (split; [reflexivity|]).
  constructor; [apply Qle_refl|].
  inversion Hfop as [|a l Hf _]; subst. exact Hf.
Qed.

Lemma analyze_metrics_describe_top_hotspot_witness :
  exists top rest,
    result_hotspots (result_of (analyze_elfcar_with_hotspots top_desc test_fs "ELFCAR" 2 0.4 [])) = top :: rest /\
    max_elf (metrics (result_of (analyze_elfcar_with_hotspots top_desc test_fs "ELFCAR" 2 0.4 []))) = elf_value top /\
    max_frac_coord (metrics (result_of (analyze_elfcar_with_hotspots top_desc test_fs "ELFCAR" 2 0.4 []))) = frac_coord top /\
    max_cart_coord (metrics (result_of (analyze_elfcar_with_hotspots top_desc test_fs "ELFCAR" 2 0.4 []))) = cart_coord top /\
    metrics_shortest_distance (metrics (result_of (analyze_elfcar_with_hotspots top_desc test_fs "ELFCAR" 2 0.4 []))) = shortest_distance top /\
    average_elf (metrics (result_of (analyze_elfcar_with_hotspots top_desc test_fs "ELFCAR" 2 0.4 []))) = round5 (mean test_grid_4x4x4) /\
    Forall (fun h => elf_value h <= max_elf (metrics (result_of (analyze_elfcar_with_hotspots top_desc test_fs "ELFCAR" 2 0.4 []))))
           (result_hotspots (result_of (analyze_elfcar_with_hotspots top_desc test_fs "ELFCAR" 2 0.4 []))).
Proof.
  apply (analyze_metrics_describe_top_hotspot top_desc top_desc_spec test_fs "ELFCAR" 2 0.4 [] [LoadElfContext "ELFCAR"]
           _ (mkContext test_grid_4x4x4 [4; 4; 4]%nat identity_lattice [])).
  - reflexivity.
  - vm_compute. reflexivity.
Defined.

End EntryExtras.

Section UnravelNat.
Import Elf.
Local Open Scope nat_scope.

Lemma unravel_rev_acc rdims : forall i acc, unravel_rev i rdims acc = unravel_rev i rdims [] ++ acc.
Proof.
  induction rdims as [|d ds IH]; intros i acc; [reflexivity|].
  destruct ds as [|d' ds']; [reflexivity|].
  change (unravel_rev i (d :: d' :: ds') acc) with (unravel_rev (i / d)%nat (d' :: ds') ((i mod d)%nat :: acc)).
  change (unravel_rev i (d :: d' :: ds') []) with (unravel_rev (i / d)%nat (d' :: ds') [(i mod d)%nat]).
  rewrite (IH (i / d)%nat ((i mod d)%nat :: acc)), (IH (i / d)%nat [(i mod d)%nat]), <- app_assoc. reflexivity.
Qed.

Lemma combine_app_single {A B} (l1 : list A) (l2 : list B) x y :
  length l1 = length l2 -> combine (l1 ++ [x]) (l2 ++ [y]) = combine l1 l2 ++ [(x, y)].
Proof.
  revert l2. induction l1 as [|a l1 IH]; intros [|b l2] H; simpl in *; try discriminate; [reflexivity|].
  rewrite IH by lia. reflexivity.
Qed.

Lemma prod_app_single l x : fold_right Nat.mul 1 (l ++ [x]) = (fold_right Nat.mul 1 l * x)%nat.
Proof. induction l as [|a l IH]; simpl; [lia | rewrite IH; lia]. Qed.

Lemma prod_rev l : fold_right Nat.mul 1 (rev l) = fold_right Nat.mul 1 l.
Proof. induction l as [|a l IH]; simpl; [reflexivity | rewrite prod_app_single, IH; lia]. Qed.

Lemma unravel_rev_spec rdims : forall i,
  Forall (fun d => 0 < d)%nat rdims -> (i < fold_right Nat.mul 1 rdims)%nat ->
  length (unravel_rev i rdims []) = length rdims /\
  Forall2 lt (unravel_rev i rdims []) (rev rdims) /\
  fold_left (fun acc p => acc * snd p + fst p)%nat (combine (unravel_rev i rdims []) (rev rdims)) 0%nat = i.
Proof.
  induction rdims as [|d ds IH]; intros i Hpos Hi.
  - simpl in *. split; [reflexivity|]. split; [constructor|]. lia.
  - inversion Hpos as [|? ? Hd Hds]; subst. destruct ds as [|d' ds'].
    + simpl in *. split; [reflexivity|]. split; [repeat constructor; lia | lia].
    + change (unravel_rev i (d :: d' :: ds') []) with (unravel_rev (i / d)%nat (d' :: ds') [(i mod d)%nat]).
      rewrite unravel_rev_acc.
      change (rev (d :: d' :: ds')) with (rev (d' :: ds') ++ [d]).
      assert (Hdiv : ((i / d)%nat < fold_right Nat.mul 1 (d' :: ds'))%nat).
      { apply Nat.Div0.div_lt_upper_bound. simpl in Hi |- *. lia. }
      destruct (IH (i / d)%nat Hds Hdiv) as [Hl [Hf Hr]].
      split; [|split].
      * rewrite length_app, Hl. simpl. lia.
      * apply Forall2_app; [exact Hf | constructor; [apply Nat.mod_upper_bound; lia | constructor]].
      * rewrite combine_app_single by (rewrite Hl, length_rev; reflexivity).
        rewrite fold_left_app, Hr. simpl.
        rewrite (Nat.div_mod i d) at 3 by lia. lia.
Qed.

End UnravelNat.

Section GridGeometry.
Import Elf Hotspots.

Lemma frac_denominator_pos d : 0 < inject_Z (frac_denominator d).
Proof.
  unfold frac_denominator. change 0 with (inject_Z 0). rewrite <- Zlt_Qlt.
  destruct (1 <? d)%nat eqn:E; [apply Nat.ltb_lt in E; lia | lia].
Qed.

Lemma index_to_frac_unit idx dims :
  Forall2 lt idx dims -> Forall (fun q => 0 <= q <= 1) (_index_to_frac idx dims).
Proof.
  induction 1 as [|v d idx dims Hvd _ IH]; [constructor|].
  unfold _index_to_frac. simpl. constructor; [|exact IH].
  pose proof (frac_denominator_pos d) as Hden.
  assert (Hv : inject_Z (Z.of_nat v) <= inject_Z (frac_denominator d)).
  { rewrite <- Zle_Qle. unfold frac_denominator.
    destruct (1 <? d)%nat eqn:E; [apply Nat.ltb_lt in E; lia | apply Nat.ltb_ge in E; lia]. }
  split.
  - apply Qle_shift_div_l; [exact Hden|]. rewrite Qmult_0_l.
    change 0 with (inject_Z 0). rewrite <- Zle_Qle. lia.
  - apply Qle_shift_div_r; [exact Hden|]. rewrite Qmult_1_l. exact Hv.
Qed.

(** X4: [np.unravel_index] (C order) of a flat index inside the grid gives
    one in-range index per axis, from which the C-order linear combination
    gives back the flat index; [_index_to_frac] of it lies in [[0, 1]] on
    every axis. *)
Theorem unravel_index_round_trip i dims :
  Forall (fun d => 0 < d)%nat dims -> (i < fold_right Nat.mul 1 dims)%nat ->
  length (unravel_index i dims) = length dims /\
  Forall2 lt (unravel_index i dims) dims /\
  fold_left (fun acc p => acc * snd p + fst p)%nat (combine (unravel_index i dims) dims) 0%nat = i /\
  Forall (fun q => 0 <= q <= 1) (_index_to_frac (unravel_index i dims) dims).
Proof.
  intros Hpos Hi. unfold unravel_index.
  destruct (unravel_rev_spec (rev dims) i) as [Hl [Hf Hr]].
  - apply Forall_rev. exact Hpos.
  - rewrite prod_rev. exact Hi.
  - rewrite rev_involutive in Hf, Hr. rewrite length_rev in Hl.
    split; [exact Hl | split; [exact Hf | split; [exact Hr |]]].
    apply index_to_frac_unit. exact Hf.
Qed.

Lemma unravel_index_round_trip_witness :
  Forall (fun d => 0 < d)%nat [4; 4; 4]%nat /\ (42 < fold_right Nat.mul 1 [4; 4; 4]%nat)%nat /\
  length (unravel_index 42 [4; 4; 4]%nat) = length [4; 4; 4]%nat /\
  Forall2 lt (unravel_index 42 [4; 4; 4]%nat) [4; 4; 4]%nat /\
  fold_left (fun acc p => acc * snd p + fst p)%nat (combine (unravel_index 42 [4; 4; 4]%nat) [4; 4; 4]%nat) 0%nat = 42%nat /\
  Forall (fun q => 0 <= q <= 1) (_index_to_frac (unravel_index 42 [4; 4; 4]%nat) [4; 4; 4]%nat).
Proof.
  assert (Hp : Forall (fun d => 0 < d)%nat [4; 4; 4]%nat) by (repeat constructor).
  assert (Hi : (42 < fold_right Nat.mul 1 [4; 4; 4]%nat)%nat) by (simpl; lia).
  split; [exact Hp | split; [exact Hi |]].
  exact (unravel_index_round_trip 42 [4; 4; 4]%nat Hp Hi).
Defined.

Lemma wrap_axis_zero x y : Qabs (x - y) == 0 \/ Qabs (x - y) == 1 -> wrap_axis x y == 0.
Proof.
  unfold wrap_axis. intros [H|H].
  - rewrite Q.min_l by lra. exact H.
  - rewrite Q.min_r by lra. lra.
Qed.

Lemma fds_zero_nth a b :
  length a = length b ->
  (forall k, (k < length a)%nat -> wrap_axis (nth k a 0) (nth k b 0) == 0) ->
  fractional_distance_sq a b == 0.
Proof.
  revert b. induction a as [|x a IH]; intros [|y b] Hl Hk; simpl in *; try discriminate; [reflexivity|].
  unfold fractional_distance_sq in *. simpl.
  rewrite (Hk 0%nat ltac:(lia)), (IH b ltac:(lia) (fun k Hk' => Hk (S k) ltac:(lia))). reflexivity.
Qed.

(** X5: the first and the last grid plane of an axis map to fractional
    coordinates 0 and 1, which the periodic distance identifies: grid
    points that differ only by such end indices are at distance 0, so
    with a positive [min_separation_frac] one of them is never accepted
    beside the other. *)
Theorem grid_end_planes_coincide idx1 idx2 dims :
  length idx1 = length dims -> length idx2 = length dims ->
  (forall k, (k < length dims)%nat ->
     nth k idx1 0%nat = nth k idx2 0%nat \/
     (nth k idx1 0%nat = 0%nat /\ nth k idx2 0%nat = (nth k dims 0 - 1)%nat) \/
     (nth k idx1 0%nat = (nth k dims 0 - 1)%nat /\ nth k idx2 0%nat = 0%nat)) ->
  _fractional_distance (_index_to_frac idx1 dims) (_index_to_frac idx2 dims) = 0%R /\
  (forall m, 0 < m -> _is_far_enough_frac (_index_to_frac idx1 dims) [_index_to_frac idx2 dims] m = false).
Proof.
  intros H1 H2 Hk.
  assert (Hl1 : length (_index_to_frac idx1 dims) = length dims)
    by (unfold _index_to_frac; rewrite length_map, length_combine; lia).
  assert (Hl2 : length (_index_to_frac idx2 dims) = length dims)
    by (unfold _index_to_frac; rewrite length_map, length_combine; lia).
  assert (Hz : fractional_distance_sq (_index_to_frac idx1 dims) (_index_to_frac idx2 dims) == 0).
  { apply fds_zero_nth; [lia|]. intros k Hk'. rewrite Hl1 in Hk'.
    unfold _index_to_frac.
    rewrite (nth_map_combine _ idx1 dims k 0%nat 0%nat 0 ltac:(lia) Hk').
    rewrite (nth_map_combine _ idx2 dims k 0%nat 0%nat 0 ltac:(lia) Hk').
    apply wrap_axis_zero.
    set (d := nth k dims 0%nat).
    assert (Hend : forall a b, a = 0%nat -> b = (d - 1)%nat ->
              Qabs (inject_Z (Z.of_nat a) / inject_Z (frac_denominator d) -
                    inject_Z (Z.of_nat b) / inject_Z (frac_denominator d)) == 0 \/
              Qabs (inject_Z (Z.of_nat a) / inject_Z (frac_denominator d) -
                    inject_Z (Z.of_nat b) / inject_Z (frac_denominator d)) == 1).
    { intros a b -> ->. unfold frac_denominator. destruct (1 <? d)%nat eqn:E.
      - apply Nat.ltb_lt in E. right.
        replace (Z.of_nat (d - 1)) with (Z.of_nat d - 1)%Z by lia.
        assert (Hq : ~ inject_Z (Z.of_nat d - 1) == 0)
          by (change 0 with (inject_Z 0); rewrite inject_Z_injective; lia).
        assert (Hone : inject_Z (Z.of_nat d - 1) / inject_Z (Z.of_nat d - 1) == 1)
          by (unfold Qdiv; apply Qmult_inv_r; exact Hq).
        rewrite Hone. reflexivity.
      - apply Nat.ltb_ge in E. left. replace (d - 1)%nat with 0%nat by lia. reflexivity. }
    destruct (Hk k Hk') as [Heq | [[Ha Hb] | [Ha Hb]]].
    - left. rewrite Heq. unfold Qminus. rewrite Qplus_opp_r. reflexivity.
    - exact (Hend _ _ Ha Hb).
    - rewrite Qabs_minus_sym. exact (Hend _ _ Hb Ha). }
  assert (Hd : _fractional_distance (_index_to_frac idx1 dims) (_index_to_frac idx2 dims) = 0%R).
  { unfold _fractional_distance. rewrite (Qeq_eqR _ _ Hz), Q2R_0. apply sqrt_0. }
  split; [exact Hd|].
  intros m Hm. simpl.
  replace (sqrt_lt _ m) with true; [reflexivity|]. symmetry.
  apply sqrt_lt_spec; [apply fractional_distance_sq_nonneg|].
  change (sqrt (Q2R (fractional_distance_sq (_index_to_frac idx1 dims) (_index_to_frac idx2 dims))))
    with (_fractional_distance (_index_to_frac idx1 dims) (_index_to_frac idx2 dims)).
  rewrite Hd, <- Q2R_0. apply Qlt_Rlt. exact Hm.
Qed.

Lemma grid_end_planes_coincide_witness :
  _fractional_distance (_index_to_frac [0; 3; 3]%nat [4; 4; 4]%nat) (_index_to_frac [3; 3; 0]%nat [4; 4; 4]%nat) = 0%R /\
  (forall m, 0 < m -> _is_far_enough_frac (_index_to_frac [0; 3; 3]%nat [4; 4; 4]%nat)
                                            [_index_to_frac [3; 3; 0]%nat [4; 4; 4]%nat] m = false).
Proof.
  apply grid_end_planes_coincide; [reflexivity | reflexivity |].
  intros k Hk. simpl in Hk.
  destruct k as [|[|[|k]]]; simpl; [right; left | left | right; right | lia]; auto.
Defined.

End GridGeometry.

Section LargeSeparation.
Import Elf Hotspots.

Lemma unravel_frac_unit i dims :
  Forall (fun d => 0 < d)%nat dims -> (i < fold_right Nat.mul 1 dims)%nat ->
  length (_index_to_frac (unravel_index i dims) dims) = length dims /\
  Forall (fun q => 0 <= q <= 1) (_index_to_frac (unravel_index i dims) dims).
Proof.
  intros Hpos Hi. unfold unravel_index.
  destruct (unravel_rev_spec (rev dims) i) as [Hl [Hf _]].
  - apply Forall_rev. exact Hpos.
  - rewrite prod_rev. exact Hi.
  - rewrite rev_involutive in Hf. rewrite length_rev in Hl. split.
    + unfold _index_to_frac. rewrite length_map, length_combine, Hl. lia.
    + apply index_to_frac_unit. exact Hf.
Qed.

Lemma wrap_axis_half x y :
  0 <= x <= 1 -> 0 <= y <= 1 -> 0 <= wrap_axis x y <= 1 # 2.
Proof.
  intros Hx Hy. unfold wrap_axis.
  assert (Hd : 0 <= Qabs (x - y) <= 1).
  { destruct (Qlt_le_dec (x - y) 0) as [H|H].
    - rewrite Qabs_neg by lra. lra.
    - rewrite Qabs_pos by lra. lra. }
  destruct (Qlt_le_dec (Qabs (x - y)) (1 - Qabs (x - y))) as [H|H].
  - rewrite Q.min_l by lra. lra.
  - rewrite Q.min_r by exact H. lra.
Qed.

Lemma fds_bound a b :
  Forall (fun q => 0 <= q <= 1) a -> Forall (fun q => 0 <= q <= 1) b ->
  fractional_distance_sq a b <= inject_Z (Z.of_nat (length a)) * (1 # 4).
Proof.
  revert b. induction a as [|x a IH]; intros b Ha Hb.
  - unfold fractional_distance_sq. simpl. unfold Qle. simpl. lia.
  - inversion Ha as [|? ? Hx Ha']; subst.
    assert (HS : inject_Z (Z.of_nat (length (x :: a))) == inject_Z (Z.of_nat (length a)) + 1)
      by (simpl length; rewrite Nat2Z.inj_succ, <- Z.add_1_r, inject_Z_plus; reflexivity).
    assert (H0 : 0 <= inject_Z (Z.of_nat (length a)))
      by (change 0 with (inject_Z 0); rewrite <- Zle_Qle; lia).
    destruct b as [|y b].
    + unfold fractional_distance_sq. simpl. rewrite HS. lra.
    + inversion Hb as [|? ? Hy Hb']; subst.
      specialize (IH b Ha' Hb'). unfold fractional_distance_sq in *. simpl.
      destruct (wrap_axis_half x y Hx Hy) as [Hw1 Hw2].
      assert (Hww : wrap_axis x y * wrap_axis x y <= 1 # 4) by nra.
      rewrite HS. lra.
Qed.

Lemma scan_grid_points_bounded flat dims lat atoms top_n m cands st :
  Forall (fun i => (i < length flat)%nat) cands ->
  Forall (fun fc => exists i, (i < length flat)%nat /\ fc = _index_to_frac (unravel_index i dims) dims)
         (accepted_frac st) ->
  Forall (fun fc => exists i, (i < length flat)%nat /\ fc = _index_to_frac (unravel_index i dims) dims)
         (accepted_frac (fst (scan flat dims lat atoms top_n m cands st))).
Proof.
  revert st. induction cands as [|i cands IH]; intros st Hc H; simpl; [exact H|].
  inversion Hc as [|? ? Hi Hc']; subst.
  destruct (existsb (Nat.eqb i) (processed st)); [apply IH; assumption|].
  destruct (_is_far_enough_frac _ _ m); simpl; [|apply IH; assumption].
  assert (Hn : Forall (fun fc => exists i, (i < length flat)%nat /\
                                           fc = _index_to_frac (unravel_index i dims) dims)
                 (accepted_frac st ++ [_index_to_frac (unravel_index i dims) dims])).
  { apply Forall_app. split; [exact H | repeat constructor]. exists i. split; [exact Hi | reflexivity]. }
  destruct (top_n <=? _)%Z; simpl; [exact Hn | apply IH; assumption].
Qed.

(** X6: on a 3-D grid every periodic fractional distance is at most
    [sqrt(3)/2], so a [min_separation_frac] whose square exceeds [3/4]
    lets [_extract_hotspots] return at most one hotspot, whatever
    [top_n]. *)
Theorem large_separation_single_hotspot argtop (Hspec : argtop_spec argtop)
    (flat : list Q) (dims : list nat) (lat atoms : list (list Q)) (top_n : Z) (m : Q) :
  length dims = 3%nat -> Forall (fun d => 0 < d)%nat dims ->
  length flat = fold_right Nat.mul 1%nat dims ->
  0 <= m -> 3 # 4 < m * m ->
  (length (_extract_hotspots argtop flat dims lat atoms top_n m) <= 1)%nat.
Proof.
  intros H3 Hpos Hlen Hm Hmm.
  set (P := fun s =>
    Forall (fun fc => exists i, (i < length flat)%nat /\ fc = _index_to_frac (unravel_index i dims) dims)
           (accepted_frac s) /\
    ForallOrdPairs (fun a b => Q2R m <= _fractional_distance b a)%R (accepted_frac s) /\
    Forall2 (fun fc h => frac_coord h = map round5 fc) (accepted_frac s) (hotspots s)).
  assert (HP : P (extract_state argtop flat dims lat atoms top_n m)).
  { apply extract_inv.
    - split; [constructor | split; constructor].
    - intros cc s Hcc _ [Hg [Hs Hf]].
      destruct (Hspec flat cc Hcc) as [Hb _].
      destruct (scan_separated flat dims lat atoms top_n m (argtop flat cc) s Hs Hf) as [Hs' Hf'].
      split; [apply scan_grid_points_bounded; assumption | split; assumption]. }
  destruct HP as [Hg [Hs Hf]].
  unfold _extract_hotspots. rewrite <- (Forall2_length Hf).
  destruct (accepted_frac (extract_state argtop flat dims lat atoms top_n m)) as [|a0 [|a1 rest]];
    simpl; [lia | lia |].
  exfalso.
  inversion Hs as [|? ? Hfa _]; subst. inversion Hfa as [|? ? Hsep _]; subst.
  inversion Hg as [|? ? [i0 [Hi0 E0]] Hg']; subst. inversion Hg' as [|? ? [i1 [Hi1 E1]] _]; subst.
  rewrite Hlen in Hi0, Hi1.
  destruct (unravel_frac_unit i0 dims Hpos Hi0) as [L0 U0].
  destruct (unravel_frac_unit i1 dims Hpos Hi1) as [L1 U1].
  pose proof (fds_bound _ _ U1 U0) as Hb. rewrite L1, H3 in Hb.
  assert (Hlt : sqrt_lt (fractional_distance_sq (_index_to_frac (unravel_index i1 dims) dims)
                                                (_index_to_frac (unravel_index i0 dims) dims)) m = true).
  { unfold sqrt_lt. apply andb_true_intro. split; [apply Qle_bool_iff; exact Hm|].
    apply Qltb_true.
    assert (E3 : inject_Z (Z.of_nat 3) * (1 # 4) == 3 # 4) by reflexivity. lra. }
  apply sqrt_lt_spec in Hlt; [|apply fractional_distance_sq_nonneg].
  unfold _fractional_distance in Hsep. lra.
Qed.

Lemma large_separation_single_hotspot_witness :
  (length (_extract_hotspots top_desc test_grid_4x4x4 [4; 4; 4]%nat identity_lattice [] 3 0.9) <= 1)%nat.
Proof.
  apply (large_separation_single_hotspot top_desc top_desc_spec test_grid_4x4x4 [4; 4; 4]%nat
           identity_lattice [] 3 0.9).
  - reflexivity.
  - repeat constructor.
  - reflexivity.
  - apply Qle_bool_iff. reflexivity.
  - reflexivity.
Defined.

End LargeSeparation.

(* ------------------------------------------------------------------ *)
(** ** Further properties of [analysis/bonds.py] *)

Section BondIds.
Import Elf Bonds.




Lemma coords_eqb_sym a b : coords_eqb a b = true -> coords_eqb b a = true.
Proof.
  revert b. induction a as [|x a IH]; intros [|y b]; simpl; try discriminate; try reflexivity.
  rewrite !andb_true_iff, !Qeq_bool_iff. intros [H1 H2]. split; [symmetry; exact H1 | auto].
Qed.










End BondIds.

Section BucketInvariants.
Import Elf Bonds.

Local Abbreviation bucket_ok t b :=
  (Forall (fun e => fst (fst e) = t /\ (1 <= snd e)%nat) b /\
   ForallOrdPairs (fun k1 k2 => (3 / 400 < Rabs (snd k1 - snd k2))%R) (map fst b)).

Lemma resolve_cases b t len tol :
  (exists c, In (_resolve_bond_key b t len tol, c) b) \/
  (Forall (fun e => within_tolerance t len tol (fst e) = false) b /\
   _resolve_bond_key b t len tol = (t, round_R 3 len)).
Proof.
  induction b as [|[k c] b IH]; simpl.
  - right. split; [constructor | reflexivity].
  - destruct (within_tolerance t len tol k) eqn:E.
    + left. exists c. left. reflexivity.
    + destruct IH as [[c' H]|[H1 H2]].
      * left. exists c'. right. exact H.
      * right. split; [constructor; assumption | exact H2].
Qed.

Lemma map_fst_dict_set_in b k v : In k (map fst b) -> map fst (dict_set b k v) = map fst b.
Proof.
  induction b as [|[k' v'] b IH]; simpl; intros H; [contradiction|].
  destruct (key_eqb k' k) eqn:E; simpl; [reflexivity|].
  f_equal. apply IH. destruct H as [H|H]; [|exact H].
  subst. rewrite key_eqb_refl in E. discriminate.
Qed.

Lemma dict_set_forall (P : Key -> nat -> Prop) b k v :
  Forall (fun e => P (fst e) (snd e)) b -> P k v -> Forall (fun e => P (fst e) (snd e)) (dict_set b k v).
Proof.
  induction b as [|[k' v'] b IH]; simpl; intros Hb Hk; [repeat constructor; exact Hk|].
  inversion Hb; subst. destruct (key_eqb k' k) eqn:E.
  - apply key_eqb_spec in E. subst. constructor; assumption.
  - constructor; [assumption | apply IH; assumption].
Qed.

Lemma sum_dict_set_incr b k :
  list_sum (map snd (dict_set b k (S (dict_get b k 0)))) = S (list_sum (map snd b)).
Proof.
  induction b as [|[k' v'] b IH]; simpl; [reflexivity|].
  destruct (key_eqb k' k); simpl; [reflexivity|]. rewrite IH. lia.
Qed.

Lemma sum_add_bond b t len : list_sum (map snd (add_bond b t len)) = S (list_sum (map snd b)).
Proof. apply sum_dict_set_incr. Qed.

(** [add_bond] keeps a bucket of type [t] well formed: every entry of
    type [t] with a positive count, representatives more than [0.0075]
    apart. *)
Lemma add_bond_ok t b len : bucket_ok t b -> bucket_ok t (add_bond b t len).
Proof.
  intros [Hty Hsep]. unfold add_bond.
  destruct (resolve_cases b t len default_tolerance) as [[c Hin]|[Hall Hk]].
  - set (k := _resolve_bond_key b t len default_tolerance) in *.
    split.
    + apply (dict_set_forall (fun k v => fst k = t /\ (1 <= v)%nat)); [exact Hty|].
      split; [|lia]. rewrite Forall_forall in Hty. exact (proj1 (Hty _ Hin)).
    + rewrite map_fst_dict_set_in; [exact Hsep|]. apply (in_map fst) in Hin. exact Hin.
  - rewrite Hk.
    assert (Hr : (Rabs (round_R 3 len - len) <= 1 / 2000)%R) by apply round_R_3_bound.
    assert (Hfar : Forall (fun e => (8 / 1000 < Rabs (snd (fst e) - len))%R) b).
    { rewrite Forall_forall in Hty, Hall |- *. intros e He.
      specialize (Hall e He). destruct (Hty e He) as [Ht _].
      destruct e as [k ec]. simpl in Hall, Ht |- *.
      destruct (Rle_dec (Rabs (snd k - len)) (8 / 1000)) as [Hle|Hgt]; [|lra].
      exfalso. assert (Hw : within_tolerance t len default_tolerance k = true).
      { apply within_tolerance_spec. unfold default_tolerance. split; [exact Ht | lra]. }
      rewrite Hw in Hall. discriminate. }
    assert (Hne : Forall (fun e => key_eqb (fst e) (t, round_R 3 len) = false) b).
    { eapply Forall_impl; [|exact Hfar]. intros e He.
      destruct e as [k ec]. simpl in He |- *.
      destruct (key_eqb k (t, round_R 3 len)) eqn:E; [|reflexivity].
      apply key_eqb_spec in E. subst k. simpl in He. lra. }
    assert (Hset : dict_set b (t, round_R 3 len) (S (dict_get b (t, round_R 3 len) 0)) =
                   b ++ [((t, round_R 3 len), 1%nat)]).
    { rewrite <- (app_nil_r b) at 1 2. rewrite dict_get_skip, dict_set_skip by exact Hne.
      reflexivity. }
    rewrite Hset. split.
    + apply Forall_app. split; [exact Hty | constructor; [simpl; split; [reflexivity | lia] | constructor]].
    + rewrite map_app. apply FOP_app_single; [exact Hsep|].
      rewrite Forall_map. eapply Forall_impl; [|exact Hfar]. intros e He. simpl.
      pose proof (Rabs_triang (snd (fst e) - round_R 3 len) (round_R 3 len - len)) as Ht.
      replace (snd (fst e) - round_R 3 len + (round_R 3 len - len))%R
        with (snd (fst e) - len)%R in Ht by ring.
      cbv beta in He. unfold Key in *. lra.
Qed.

Lemma fold_left_inv {A B} (f : A -> B -> A) (P : A -> Prop) l a :
  (forall a b, P a -> P (f a b)) -> P a -> P (fold_left f l a).
Proof. revert a. induction l as [|x l IH]; simpl; auto. Qed.

Lemma fold_left_measure {A B} (f : A -> B -> A) (g : A -> nat) (w : B -> nat) l a :
  (forall a b, (g (f a b) <= g a + w b)%nat) ->
  (g (fold_left f l a) <= g a + list_sum (map w l))%nat.
Proof.
  revert a. induction l as [|x l IH]; intros a Hf; simpl; [lia|].
  specialize (IH (f a x) Hf). specialize (Hf a x). lia.
Qed.

Lemma collect_neighbor_ok gfc s vd sc st nb :
  bucket_ok "in-plane"%string (in_plane st) -> bucket_ok "interlayer"%string (interlayer st) ->
  bucket_ok "in-plane"%string (in_plane (collect_neighbor gfc s vd sc st nb)) /\
  bucket_ok "interlayer"%string (interlayer (collect_neighbor gfc s vd sc st nb)).
Proof.
  intros Hi Hl. unfold collect_neighbor. cbv zeta.
  destruct (outside_cell _); [auto|]. destruct (existsb _ _); [auto|].
  destruct (_ =? vd)%nat; simpl; split; try assumption; apply add_bond_ok; assumption.
Qed.

Lemma collect_bonds_ok get_neighbors gfc s max_distance vd :
  bucket_ok "in-plane"%string (fst (_collect_bonds get_neighbors gfc s max_distance vd)) /\
  bucket_ok "interlayer"%string (snd (_collect_bonds get_neighbors gfc s max_distance vd)).
Proof.
  unfold _collect_bonds. simpl.
  apply (fold_left_inv _ (fun st => bucket_ok "in-plane"%string (in_plane st) /\
                                    bucket_ok "interlayer"%string (interlayer st))).
  - intros st site Hst.
    apply (fold_left_inv _ (fun st => bucket_ok "in-plane"%string (in_plane st) /\
                                      bucket_ok "interlayer"%string (interlayer st))); [|exact Hst].
    intros st' nb [H1 H2]. apply collect_neighbor_ok; assumption.
  - simpl. repeat split; constructor.
Qed.

Lemma collect_neighbor_total gfc s vd sc st nb :
  (list_sum (map snd (in_plane (collect_neighbor gfc s vd sc st nb))) +
   list_sum (map snd (interlayer (collect_neighbor gfc s vd sc st nb))) <=
   list_sum (map snd (in_plane st)) + list_sum (map snd (interlayer st)) + 1)%nat.
Proof.
  unfold collect_neighbor. cbv zeta.
  destruct (outside_cell _); [lia|]. destruct (existsb _ _); [lia|].
  destruct (_ =? vd)%nat; simpl; rewrite sum_add_bond; lia.
Qed.

Lemma list_sum_const_one {A} (l : list A) : list_sum (map (fun _ => 1%nat) l) = length l.
Proof. induction l as [|x l IH]; simpl; [reflexivity | rewrite IH; reflexivity]. Qed.

Lemma insert_by_length_forall P x l :
  Forall P (insert_by_length x l) <-> P x /\ Forall P l.
Proof.
  induction l as [|y l IH]; simpl.
  - rewrite !Forall_cons_iff. split; [intros [H _]; split; [exact H | constructor] | intros [H _]; split; [exact H | constructor]].
  - destruct (Rle_dec (length_ x) (length_ y)).
    + rewrite !Forall_cons_iff. tauto.
    + rewrite !Forall_cons_iff, IH. tauto.
Qed.

Lemma fold_insert_forall P l :
  Forall P (fold_right insert_by_length [] l) <-> Forall P l.
Proof.
  induction l as [|x l IH]; simpl; [tauto|].
  rewrite insert_by_length_forall, IH, Forall_cons_iff. tauto.
Qed.

Lemma Rabs_gap a b d : (a <= b)%R -> (d < Rabs (a - b))%R -> (a + d < b)%R.
Proof. intros H1 H2. rewrite Rabs_left1 in H2 by lra. lra. Qed.

Lemma insert_by_length_strict d x l :
  StronglySorted (fun a b => (length_ a + d < length_ b)%R) l ->
  Forall (fun y => (d < Rabs (length_ x - length_ y))%R) l ->
  StronglySorted (fun a b => (length_ a + d < length_ b)%R) (insert_by_length x l).
Proof.
  induction l as [|y l IH]; simpl; intros Hs Hf.
  - repeat constructor.
  - inversion Hs as [|? ? Hs' Hy]; subst. inversion Hf as [|? ? Hxy Hf']; subst.
    destruct (Rle_dec (length_ x) (length_ y)) as [Hle|Hgt].
    + pose proof (Rabs_gap _ _ _ Hle Hxy) as Hlt.
      constructor; [exact Hs|]. constructor; [exact Hlt|].
      eapply Forall_impl; [|exact Hy]. intros z Hz. simpl in Hz. lra.
    + constructor; [apply IH; assumption|]. apply insert_by_length_forall. split.
      * apply Rabs_gap; [lra|]. rewrite Rabs_minus_sym. exact Hxy.
      * exact Hy.
Qed.

Lemma FOP_map_impl {A B C} (f : A -> B) (g : A -> C) (Rf : B -> B -> Prop) (Rg : C -> C -> Prop) l :
  (forall a b, Rf (f a) (f b) -> Rg (g a) (g b)) ->
  ForallOrdPairs Rf (map f l) -> ForallOrdPairs Rg (map g l).
Proof.
  intros Himp. induction l as [|x l IH]; simpl; intros H; [constructor|].
  inversion H; subst. constructor; [|auto].
  rewrite Forall_map in *. eapply Forall_impl; [|eassumption]. intros a Ha. apply Himp. exact Ha.
Qed.

Lemma summaries_ok t b :
  bucket_ok t b ->
  Forall (fun x => bond_type x = t /\ (1 <= count x)%nat) (_dict_to_summaries b) /\
  StronglySorted (fun x y => (length_ x + 3 / 400 < length_ y)%R) (_dict_to_summaries b).
Proof.
  intros [Hty Hsep]. unfold _dict_to_summaries. split.
  - apply fold_insert_forall. rewrite Forall_map. eapply Forall_impl; [|exact Hty].
    intros [k c] H. exact H.
  - assert (Hs : ForallOrdPairs (fun x y => (3 / 400 < Rabs (length_ x - length_ y))%R)
                   (map (fun '(key, c) => mkSummary (fst key) (snd key) c) b)).
    { revert Hsep. apply FOP_map_impl. intros [k1 c1] [k2 c2]. simpl. auto. }
    induction Hs as [|x l Hx Hl IH]; simpl; [constructor|].
    apply insert_by_length_strict; [exact IH|].
    apply fold_insert_forall. exact Hx.
Qed.

(** X9: in each of the six summary sequences of [analyze_structure] every
    summary carries the sequence's bond type ("in-plane" or "interlayer")
    and a count of at least one, and the lengths strictly increase, each
    more than [0.0075] above the previous one. *)
Theorem bond_summaries_typed_and_spaced get_neighbors gfc primitive_standard supercell_sites
    (s : Structure) (max_distance : Q) :
  let r := analyze_structure get_neighbors gfc primitive_standard supercell_sites s max_distance in
  Forall (fun L => Forall (fun x => bond_type x = "in-plane"%string /\ (1 <= count x)%nat) L /\
                   StronglySorted (fun x y => (length_ x + 3 / 400 < length_ y)%R) L)
         [unit_cell_in_plane r; primitive_in_plane r; supercell_in_plane r] /\
  Forall (fun L => Forall (fun x => bond_type x = "interlayer"%string /\ (1 <= count x)%nat) L /\
                   StronglySorted (fun x y => (length_ x + 3 / 400 < length_ y)%R) L)
         [unit_cell_interlayer r; primitive_interlayer r; supercell_interlayer r].
Proof.
  unfold analyze_structure.
  pose proof (collect_bonds_ok get_neighbors gfc s max_distance (vacuum_direction s)) as [U1 U2].
  pose proof (collect_bonds_ok get_neighbors gfc (primitive_standard s) max_distance
                               (vacuum_direction s)) as [P1 P2].
  pose proof (collect_bonds_ok get_neighbors gfc
                (_build_supercell supercell_sites s (vacuum_direction s)) max_distance
                (vacuum_direction s)) as [S1 S2].
  destruct (_collect_bonds get_neighbors gfc s max_distance (vacuum_direction s)) as [u1 u2].
  destruct (_collect_bonds get_neighbors gfc (primitive_standard s) max_distance
                           (vacuum_direction s)) as [p1 p2].
  destruct (_collect_bonds get_neighbors gfc (_build_supercell supercell_sites s (vacuum_direction s))
                           max_distance (vacuum_direction s)) as [s1 s2].
  simpl in *. split; repeat (apply Forall_cons; [apply summaries_ok; assumption|]); apply Forall_nil.
Qed.

(** X10: [_collect_bonds] never counts more bonds than the neighbour
    entries it examines: the counts of both buckets sum to at most the
    total number of neighbours pymatgen returns over all sites. *)
Theorem collect_bonds_count_bound get_neighbors gfc (s : Structure) (max_distance : Q) (vd : nat) :
  (list_sum (map snd (fst (_collect_bonds get_neighbors gfc s max_distance vd))) +
   list_sum (map snd (snd (_collect_bonds get_neighbors gfc s max_distance vd))) <=
   list_sum (map (fun site => length (get_neighbors s site max_distance)) (sites s)))%nat.
Proof.
  unfold _collect_bonds. simpl.
  set (g := fun st => (list_sum (map snd (in_plane st)) + list_sum (map snd (interlayer st)))%nat).
  change (g (fold_left (fun st site =>
             fold_left (collect_neighbor gfc s vd (site_coords s site))
                       (get_neighbors s site max_distance) st) (sites s) (mkCollect [] [] [])) <=
          list_sum (map (fun site => length (get_neighbors s site max_distance)) (sites s)))%nat.
  eapply Nat.le_trans;
    [apply (fold_left_measure _ g (fun site => length (get_neighbors s site max_distance)))|];
    [|simpl; lia].
  intros st site.
  eapply Nat.le_trans; [apply (fold_left_measure _ g (fun _ => 1%nat))|].
  - intros st' nb. apply collect_neighbor_total.
  - rewrite list_sum_const_one. lia.
Qed.

End BucketInvariants.

Section LayersAndLattice.
Import Elf Bonds.

Lemma insert_asc_length x l : length (insert_asc x l) = S (length l).
Proof. induction l as [|y l IH]; simpl; [|destruct (Qle_bool x y); simpl; rewrite ?IH]; reflexivity. Qed.

Lemma sort_asc_length l : length (sort_asc l) = length l.
Proof. induction l as [|x l IH]; simpl; [|rewrite insert_asc_length, <- IH]; reflexivity. Qed.

Lemma combine_tl_length {A} (l : list A) : length (combine l (tl l)) = (length l - 1)%nat.
Proof. destruct l as [|x l]; [reflexivity|]. cbn [tl]. rewrite length_combine. cbn [length]. lia. Qed.

Lemma filter_length_mono {A} (f g : A -> bool) l :
  (forall x, f x = true -> g x = true) -> (length (filter f l) <= length (filter g l))%nat.
Proof.
  intros Hfg. induction l as [|x l IH]; simpl; [lia|].
  destruct (f x) eqn:Ef; [rewrite (Hfg x Ef); simpl; lia|].
  destruct (g x); simpl; lia.
Qed.

Lemma filter_length_le' {A} (f : A -> bool) l : (length (filter f l) <= length l)%nat.
Proof. induction l as [|x l IH]; simpl; [lia | destruct (f x); simpl; lia]. Qed.

(** X11: [_count_layers] returns at least one layer and never more layers
    than there are sites (one for a structure with at most one site). *)
Theorem count_layers_range (s : Structure) (vd : nat) (gap_threshold : Q) :
  (1 <= _count_layers s vd gap_threshold <= Nat.max 1 (length (sites s)))%nat.
Proof.
  unfold _count_layers. cbv zeta.
  pose proof (filter_length_le' (fun '(a, b) => Qltb gap_threshold (b - a))
                (combine (sort_asc (map (fun site => nth vd (site_coords s site) 0) (sites s)))
                         (tl (sort_asc (map (fun site => nth vd (site_coords s site) 0) (sites s))))))
    as H.
  rewrite combine_tl_length, sort_asc_length, length_map in H. lia.
Qed.

(** X12: a larger [gap_threshold] never yields more layers. *)
Theorem count_layers_antitone (s : Structure) (vd : nat) (t1 t2 : Q) :
  t1 <= t2 -> (_count_layers s vd t2 <= _count_layers s vd t1)%nat.
Proof.
  intros Ht. unfold _count_layers. cbv zeta.
  apply Nat.add_le_mono_r. apply filter_length_mono.
  intros [a b]. rewrite !Qltb_true. intros H. lra.
Qed.

Lemma count_layers_antitone_witness :
  let s := mkStructure [[1; 0; 0]; [0; 1; 0]; [0; 0; 20]]
             [mkSite "Mo" [0; 0; 0]; mkSite "S" [0; 0; 1 # 10]; mkSite "Mo" [0; 0; 1 # 2]] in
  (_count_layers s 2 (5 # 2) <= _count_layers s 2 (3 # 2))%nat.
Proof.
  intros s. apply (count_layers_antitone s 2 (3 # 2) (5 # 2)).
  apply Qle_bool_iff. reflexivity.
Defined.

Lemma argmax_aux_spec (xs : list R) : forall pre i best bv d,
  length pre = i -> (best < i)%nat -> nth best pre d = bv ->
  (forall j, (j < i)%nat -> (nth j pre d <= bv)%R) ->
  (forall j, (j < best)%nat -> (nth j pre d < bv)%R) ->
  let r := argmax_aux Rltb xs i best bv in
  (r < i + length xs)%nat /\
  (forall j, (j < i + length xs)%nat -> (nth j (pre ++ xs) d <= nth r (pre ++ xs) d)%R) /\
  (forall j, (j < r)%nat -> (nth j (pre ++ xs) d < nth r (pre ++ xs) d)%R).
Proof.
  induction xs as [|x xs IH]; intros pre i best bv d Hl Hb Hbv Hle Hlt r.
  - subst r. simpl. rewrite app_nil_r, Nat.add_0_r, Hbv. auto.
  - subst r. simpl. replace (pre ++ x :: xs) with ((pre ++ [x]) ++ xs) by (rewrite <- app_assoc; reflexivity).
    replace (i + S (length xs))%nat with (S i + length xs)%nat by lia.
    assert (Hpx : forall j, (j < i)%nat -> nth j (pre ++ [x]) d = nth j pre d)
      by (intros j Hj; apply app_nth1; lia).
    assert (Hpi : nth i (pre ++ [x]) d = x)
      by (rewrite app_nth2 by lia; rewrite Hl, Nat.sub_diag; reflexivity).
    unfold Rltb. destruct (Rlt_dec bv x) as [Hbx|Hbx].
    + apply IH.
      * rewrite length_app, Hl. simpl. lia.
      * lia.
      * exact Hpi.
      * intros j Hj. destruct (Nat.eq_dec j i) as [->|Hji]; [rewrite Hpi; lra|].
        rewrite Hpx by lia. specialize (Hle j ltac:(lia)). lra.
      * intros j Hj. rewrite Hpx by lia. specialize (Hle j Hj). lra.
    + apply IH.
      * rewrite length_app, Hl. simpl. lia.
      * lia.
      * rewrite Hpx by lia. exact Hbv.
      * intros j Hj. destruct (Nat.eq_dec j i) as [->|Hji]; [rewrite Hpi; lra|].
        rewrite Hpx by lia. apply Hle. lia.
      * intros j Hj. rewrite Hpx by lia. apply Hlt. exact Hj.
Qed.

(** X13: the vacuum direction is the index of a longest lattice vector, and
    of the first one when several are equally long ([np.argmax]). *)
Theorem vacuum_direction_first_longest (s : Structure) :
  lattice s <> [] ->
  (vacuum_direction s < length (lattice s))%nat /\
  (forall j, (j < length (lattice s))%nat ->
     (norm (nth j (lattice s) []) <= norm (nth (vacuum_direction s) (lattice s) []))%R) /\
  (forall j, (j < vacuum_direction s)%nat ->
     (norm (nth j (lattice s) []) < norm (nth (vacuum_direction s) (lattice s) []))%R).
Proof.
  intros Hne. unfold vacuum_direction.
  destruct (lattice s) as [|v vs] eqn:El; [contradiction|].
  simpl map. unfold argmax.
  destruct (argmax_aux_spec (map norm vs) [norm v] 1 0 (norm v) (norm [])) as [H1 [H2 H3]];
    [reflexivity | lia | reflexivity | intros j Hj; destruct j; [simpl; lra | lia] | intros j Hj; lia |].
  simpl app in H2, H3. rewrite length_map in H1, H2.
  rewrite <- (map_nth norm (v :: vs)). cbn [map length].
  split; [simpl in H1; lia | split; intros j Hj; rewrite <- (map_nth norm (v :: vs)); cbn [map]].
  - apply H2. simpl. lia.
  - apply H3. exact Hj.
Qed.

Lemma vacuum_direction_first_longest_witness :
  let s := mkStructure [[3; 0; 0]; [0; 3; 0]; [0; 0; 20]] [] in
  (vacuum_direction s < 3)%nat /\
  (forall j, (j < 3)%nat -> (norm (nth j (lattice s) []) <= norm (nth (vacuum_direction s) (lattice s) []))%R) /\
  (forall j, (j < vacuum_direction s)%nat ->
     (norm (nth j (lattice s) []) < norm (nth (vacuum_direction s) (lattice s) []))%R).
Proof.
  intros s. apply (vacuum_direction_first_longest s). discriminate.
Defined.

(** X14: [_build_supercell] hands [make_supercell] a lattice whose rows
    other than the vacuum row are the original lattice vectors tripled,
    and whose vacuum row is the sum [a + b + c] of all three vectors. *)
Theorem build_supercell_lattice supercell_sites (s : Structure) (vd : nat)
    (a0 a1 a2 b0 b1 b2 c0 c1 c2 : Q) :
  lattice s = [[a0; a1; a2]; [b0; b1; b2]; [c0; c1; c2]] -> (vd < 3)%nat ->
  Forall2 (Forall2 Qeq) (lattice (_build_supercell supercell_sites s vd))
    (map (fun r => if (r =? vd)%nat then [a0 + b0 + c0; a1 + b1 + c1; a2 + b2 + c2]
                   else map (Qmult 3) (nth r (lattice s) []))
         [0; 1; 2]%nat).
Proof.
  intros Hl Hvd. unfold _build_supercell, make_supercell, supercell_lattice, scaling_matrix,
    _frac_to_cart. simpl lattice. rewrite Hl.
  destruct vd as [|[|[|vd]]]; [| | | lia]; simpl;
    repeat constructor; ring.
Qed.

Lemma build_supercell_lattice_witness :
  Forall2 (Forall2 Qeq)
    (lattice (_build_supercell (fun _ _ => [])
                (mkStructure [[3; 0; 0]; [0; 3; 0]; [1; 1; 20]] []) 2))
    [[9; 0; 0]; [0; 9; 0]; [4; 4; 20]].
Proof.
  pose proof (build_supercell_lattice (fun _ _ => [])
                (mkStructure [[3; 0; 0]; [0; 3; 0]; [1; 1; 20]] []) 2 3 0 0 0 3 0 1 1 20
                eq_refl ltac:(lia)) as H.
  exact H.
Defined.

End LayersAndLattice.

(* ------------------------------------------------------------------ *)
(** ** [analyze_directory] and [_label_for_path] *)

Section DirectoryProofs.
Import Elf Hotspots ElfAnalysis ElfDirectory.

Lemma key_leb_total a b : key_leb a b = false -> key_leb b a = true.
Proof.
  destruct a as [x|x], b as [y|y]; unfold key_leb; intros H; try discriminate; try reflexivity.
  - apply Z.leb_gt in H. apply Z.leb_le. lia.
  - rewrite String.compare_antisym in H.
    destruct (String.compare y x); simpl in H; try discriminate; reflexivity.
Qed.

Lemma awh_trace argtop fs path top_n m tr :
  analyze_elfcar_with_hotspots argtop fs path top_n m tr =
  (tr ++ fst (analyze_elfcar_with_hotspots argtop fs path top_n m []),
   snd (analyze_elfcar_with_hotspots argtop fs path top_n m [])).
Proof.
  unfold analyze_elfcar_with_hotspots.
  destruct (top_n <? 1)%Z; [simpl; rewrite app_nil_r; reflexivity|].
  destruct (Qltb m 0); [simpl; rewrite app_nil_r; reflexivity|].
  unfold bind, _load_elf_context. destruct (fs path); [reflexivity|].
  destruct (_extract_hotspots _ _ _ _ _ _ _); reflexivity.
Qed.

Lemma awh_success_trace argtop fs path top_n m r :
  snd (analyze_elfcar_with_hotspots argtop fs path top_n m []) = inr r ->
  fst (analyze_elfcar_with_hotspots argtop fs path top_n m []) = [LoadElfContext path].
Proof.
  unfold analyze_elfcar_with_hotspots.
  destruct (top_n <? 1)%Z; [discriminate|]. destruct (Qltb m 0); [discriminate|].
  unfold bind, _load_elf_context. destruct (fs path); [discriminate|].
  destruct (_extract_hotspots _ _ _ _ _ _ _); [discriminate | reflexivity].
Qed.

Section Items.
Variable argtop : list Q -> nat -> list nat.
Variable py_int : string -> option Z.

Local Abbreviation key_rel := (fun a b : string * string =>
  key_leb (_sort_key py_int (fst a)) (_sort_key py_int (fst b)) = true).

Lemma insert_by_key_perm x l : Permutation (insert_by_key py_int x l) (x :: l).
Proof.
  induction l as [|y l IH]; simpl; [reflexivity|].
  destruct (key_leb _ _); [reflexivity|].
  etransitivity; [apply perm_skip; exact IH | apply perm_swap].
Qed.

Lemma sort_labelled_perm l : Permutation (sort_labelled py_int l) l.
Proof.
  induction l as [|x l IH]; simpl; [reflexivity|].
  etransitivity; [apply insert_by_key_perm | apply perm_skip; exact IH].
Qed.

Lemma insert_by_key_hd x y l :
  key_rel y x -> HdRel key_rel y l -> HdRel key_rel y (insert_by_key py_int x l).
Proof.
  intros Hyx Hd. destruct l as [|z l]; simpl.
  - constructor. exact Hyx.
  - destruct (key_leb _ _); constructor; [exact Hyx|]. inversion Hd. assumption.
Qed.

Lemma insert_by_key_sorted x l : Sorted key_rel l -> Sorted key_rel (insert_by_key py_int x l).
Proof.
  induction 1 as [|y l Hl IH Hd]; simpl.
  - repeat constructor.
  - destruct (key_leb (_sort_key py_int (fst x)) (_sort_key py_int (fst y))) eqn:E.
    + constructor; [constructor; assumption | constructor; exact E].
    + constructor; [exact IH|]. apply insert_by_key_hd; [apply key_leb_total; exact E | exact Hd].
Qed.

Lemma sort_labelled_sorted l : Sorted key_rel (sort_labelled py_int l).
Proof.
  induction l as [|x l IH]; simpl; [constructor|]. apply insert_by_key_sorted. exact IH.
Qed.


Lemma analyze_all_failure fs top_n m items : forall tr tr' e,
  analyze_all argtop fs top_n m items tr = (tr', inl e) ->
  exists pre it post, items = pre ++ it :: post /\
    Forall (fun p => exists r, snd (analyze_elfcar_with_hotspots argtop fs (snd p) top_n m []) = inr r) pre /\
    snd (analyze_elfcar_with_hotspots argtop fs (snd it) top_n m []) = inl e /\
    tr' = tr ++ map (fun it => LoadElfContext (snd it)) pre ++
          fst (analyze_elfcar_with_hotspots argtop fs (snd it) top_n m []).
Proof.
  induction items as [|[lab path] items IH]; intros tr tr' e H.
  - simpl in H. discriminate.
  - simpl in H. unfold bind at 1 in H. rewrite awh_trace in H.
    destruct (snd (analyze_elfcar_with_hotspots argtop fs path top_n m [])) as [e0|a] eqn:Ea.
    + inversion H; subst. exists [], (lab, path), items. simpl. auto.
    + unfold bind in H.
      destruct (analyze_all argtop fs top_n m items
                  (tr ++ fst (analyze_elfcar_with_hotspots argtop fs path top_n m [])))
        as [tr2 [e1|rs]] eqn:E2; [|discriminate].
      inversion H; subst.
      destruct (IH _ _ _ E2) as [pre [it [post [Hi [Hpre [He Ht]]]]]].
      exists ((lab, path) :: pre), it, post. split; [rewrite Hi; reflexivity|].
      split; [constructor; [exists a; exact Ea | exact Hpre]|]. split; [exact He|].
      rewrite Ht, (awh_success_trace _ _ _ _ _ _ Ea), <- app_assoc. reflexivity.
Qed.

End Items.


(** X16: when [analyze_directory] raises, it raises the exception of the
    first file, in [_sort_key] order, whose analysis raises: every file
    before it was analysed successfully and loaded, and no later file is
    read. *)
Theorem analyze_directory_stops_at_first_failure argtop str_lower py_int path_name fs candidates
    prefix top_n m tr tr' e :
  analyze_directory argtop str_lower py_int path_name fs candidates prefix top_n m tr = (tr', inl e) ->
  exists pre it post,
    Permutation (pre ++ it :: post)
                (map (fun p => (_label_for_path str_lower (path_name p) prefix, p)) candidates) /\
    Sorted (fun a b => key_leb (_sort_key py_int (fst a)) (_sort_key py_int (fst b)) = true)
           (pre ++ it :: post) /\
    Forall (fun p => exists r, snd (analyze_elfcar_with_hotspots argtop fs (snd p) top_n m []) = inr r) pre /\
    snd (analyze_elfcar_with_hotspots argtop fs (snd it) top_n m []) = inl e /\
    tr' = tr ++ map (fun it => LoadElfContext (snd it)) pre ++
          fst (analyze_elfcar_with_hotspots argtop fs (snd it) top_n m []).
Proof.
  unfold analyze_directory. intros H.
  destruct (analyze_all_failure argtop _ _ _ _ _ _ _ H) as [pre [it [post [Hi Hrest]]]].
  exists pre, it, post. rewrite <- Hi.
  split; [apply sort_labelled_perm | split; [apply sort_labelled_sorted | exact Hrest]].
Qed.

(** X17: with [top_n < 1], [analyze_directory] raises the [ValueError] of
    [analyze_elfcar_with_hotspots] before reading any file when the
    directory has a matching file, and returns an empty list without
    raising when it has none. *)
Theorem analyze_directory_top_n_check argtop str_lower py_int path_name fs candidates prefix
    top_n m tr :
  (top_n < 1)%Z ->
  (candidates = [] ->
   analyze_directory argtop str_lower py_int path_name fs candidates prefix top_n m tr = (tr, inr [])) /\
  (candidates <> [] ->
   analyze_directory argtop str_lower py_int path_name fs candidates prefix top_n m tr =
   (tr, inl (ValueError "top_n must be >= 1"))).
Proof.
  intros Ht. split; [intros ->; reflexivity|]. intros Hne.
  unfold analyze_directory.
  pose proof (sort_labelled_perm py_int
                (map (fun p => (_label_for_path str_lower (path_name p) prefix, p)) candidates)) as Hp.
  destruct (sort_labelled py_int _) as [|[lab path] rest] eqn:Es.
  - apply Permutation_nil in Hp. apply map_eq_nil in Hp. contradiction.
  - simpl. unfold bind at 1, analyze_elfcar_with_hotspots.
    replace (top_n <? 1)%Z with true by (symmetry; apply Z.ltb_lt; exact Ht). reflexivity.
Qed.

Lemma str_drop_app s r : str_drop (String.length s) (s ++ r)%string = r.
Proof. induction s as [|c s IH]; simpl; [reflexivity | exact IH]. Qed.

Lemma prefix_app s r : String.prefix s (s ++ r)%string = true.
Proof.
  induction s as [|c s IH]; simpl; [destruct r; reflexivity|].
  destruct (ascii_dec c c) as [_|H]; [exact IH | contradiction].
Qed.

Lemma remove_first_unfold old s :
  remove_first old s =
  if String.prefix old s then str_drop (String.length old) s
  else match s with EmptyString => EmptyString | String c s' => String c (remove_first old s') end.
Proof. destruct s; reflexivity. Qed.

Lemma remove_first_prefix old r : remove_first old (old ++ r)%string = r.
Proof. rewrite remove_first_unfold, prefix_app. apply str_drop_app. Qed.

Lemma split_dot_head_no_dot s : ~ In "."%char (list_ascii_of_string (split_dot_head s)).
Proof.
  induction s as [|c s IH]; simpl; [tauto|].
  destruct (Ascii.eqb c "."%char) eqn:E; simpl; [tauto|].
  intros [H|H]; [rewrite H, Ascii.eqb_refl in E; discriminate | exact (IH H)].
Qed.

Lemma split_dot_head_app s ext :
  ~ In "."%char (list_ascii_of_string s) -> split_dot_head (s ++ String "." ext)%string = s.
Proof.
  induction s as [|c s IH]; simpl; intros H.
  - reflexivity.
  - destruct (Ascii.eqb c "."%char) eqn:E.
    + apply Ascii.eqb_eq in E. exfalso. apply H. left. exact E.
    + rewrite IH; [reflexivity | intros H'; apply H; right; exact H'].
Qed.

Lemma list_ascii_app s r :
  list_ascii_of_string (s ++ r)%string = list_ascii_of_string s ++ list_ascii_of_string r.
Proof. induction s as [|c s IH]; simpl; [reflexivity | rewrite IH; reflexivity]. Qed.

(** X18: [_label_for_path] never returns a label containing a dot; for a
    file named [prefix ++ stem] it returns "bulk" when [stem] lowercases
    to "bulk", and for a file named [prefix ++ stem ++ "." ++ ext] with no
    dot in [stem] it returns [stem] (the extension is dropped). *)
Theorem label_for_path_cases str_lower prefix stem :
  (forall name, ~ In "."%char (list_ascii_of_string (_label_for_path str_lower name prefix))) /\
  (str_lower stem = "bulk"%string -> _label_for_path str_lower (prefix ++ stem)%string prefix = "bulk"%string) /\
  (forall ext, ~ In "."%char (list_ascii_of_string stem) ->
   str_lower (stem ++ String "." ext)%string <> "bulk"%string ->
   _label_for_path str_lower (prefix ++ stem ++ String "." ext)%string prefix = stem).
Proof.
  split; [|split].
  - intros name. unfold _label_for_path. cbv zeta.
    destruct (_ || _); [|apply split_dot_head_no_dot].
    simpl. intros H. repeat destruct H as [H|H]; try discriminate; contradiction.
  - intros H. unfold _label_for_path. cbv zeta. rewrite remove_first_prefix, H. reflexivity.
  - intros ext Hs Hl. unfold _label_for_path. cbv zeta. rewrite remove_first_prefix.
    replace (String.eqb (str_lower (stem ++ String "." ext)%string) "bulk") with false
      by (symmetry; apply String.eqb_neq; exact Hl).
    replace (String.eqb (stem ++ String "." ext)%string "bulk") with false.
    + apply split_dot_head_app. exact Hs.
    + symmetry. apply String.eqb_neq. intros Heq.
      assert (Hin : In "."%char (list_ascii_of_string (stem ++ String "." ext)%string)).
      { rewrite list_ascii_app. apply in_or_app. right. left. reflexivity. }
      rewrite Heq in Hin. simpl in Hin. repeat destruct Hin as [Hin|Hin]; try discriminate; contradiction.
Qed.

End DirectoryProofs.

Section DirectoryWitnesses.
Import Elf Hotspots ElfAnalysis ElfDirectory.


Lemma analyze_directory_stops_at_first_failure_witness :
  let py_int := fun s => if String.eqb s "2" then Some 2%Z
                         else if String.eqb s "10" then Some 10%Z else None in
  let fs : FileSystem := fun p => if String.eqb p "ELFCAR_10.vasp" then inl (OSError p) else test_fs p in
  let cands := ["ELFCAR_10.vasp"; "ELFCAR_bulk"; "ELFCAR_2.vasp"]%string in
  let run := analyze_directory top_desc (fun s => s) py_int (fun p => p) fs cands
               "ELFCAR_" 1 (1 # 20) [] in
  let e := match snd run with inl e => e | inr _ => OSError "" end in
  exists pre it post,
    Permutation (pre ++ it :: post) (map (fun p => (_label_for_path (fun s => s) p "ELFCAR_", p)) cands) /\
    Sorted (fun a b => key_leb (_sort_key py_int (fst a)) (_sort_key py_int (fst b)) = true)
           (pre ++ it :: post) /\
    Forall (fun p => exists r, snd (analyze_elfcar_with_hotspots top_desc fs (snd p) 1 (1 # 20) []) = inr r) pre /\
    snd (analyze_elfcar_with_hotspots top_desc fs (snd it) 1 (1 # 20) []) = inl e /\
    fst run = [] ++ map (fun it => LoadElfContext (snd it)) pre ++
              fst (analyze_elfcar_with_hotspots top_desc fs (snd it) 1 (1 # 20) []).
Proof.
  intros py_int fs cands run e.
  apply (analyze_directory_stops_at_first_failure top_desc (fun s => s) py_int (fun p => p) fs cands
           "ELFCAR_" 1 (1 # 20) [] (fst run) e).
  vm_compute. reflexivity.
Defined.

Lemma analyze_directory_top_n_check_witness :
  (["ELFCAR_1"]%string = [] ->
   analyze_directory top_desc (fun s => s) (fun _ => None) (fun p => p) test_fs ["ELFCAR_1"]%string
                     "ELFCAR_" 0 (1 # 20) [] = ([], inr [])) /\
  (["ELFCAR_1"]%string <> [] ->
   analyze_directory top_desc (fun s => s) (fun _ => None) (fun p => p) test_fs ["ELFCAR_1"]%string
                     "ELFCAR_" 0 (1 # 20) [] = ([], inl (ValueError "top_n must be >= 1"))).
Proof.
  apply (analyze_directory_top_n_check top_desc (fun s => s) (fun _ => None) (fun p => p) test_fs
           ["ELFCAR_1"]%string "ELFCAR_" 0 (1 # 20) []).
  reflexivity.
Defined.

End DirectoryWitnesses.

Section NearestAtom.
Import Elf Hotspots.

Lemma fold_min_spec (f : list Q -> R) (l : list (list Q)) : forall acc,
  let r := fold_left (fun acc b => Rmin acc (f b)) l acc in
  (r = acc \/ exists b, In b l /\ r = f b) /\ (r <= acc)%R /\ (forall b, In b l -> (r <= f b)%R).
Proof.
  induction l as [|x l IH]; intros acc r; subst r; simpl.
  - split; [left; reflexivity | split; [lra | intros b []]].
  - destruct (IH (Rmin acc (f x))) as [Hr [Hle Hall]].
    split; [|split].
    + destruct Hr as [Hr|[b [Hb Hr]]]; [|right; exists b; auto].
      rewrite Hr. unfold Rmin. destruct (Rle_dec acc (f x)); [left | right; exists x]; auto.
    + pose proof (Rmin_l acc (f x)). lra.
    + intros b [Hx|Hb]; [subst b; pose proof (Rmin_r acc (f x)); lra | auto].
Qed.

Lemma nearest_atom_spec atoms cart :
  (atoms = [] -> nearest_atom atoms cart = None) /\
  (atoms <> [] -> exists d, nearest_atom atoms cart = Some (round_R 5 d) /\
     (exists a, In a atoms /\ d = euclid a cart) /\
     (forall a, In a atoms -> (d <= euclid a cart)%R)).
Proof.
  split; [intros ->; reflexivity|]. intros Hne.
  destruct atoms as [|a0 rest]; [contradiction|].
  destruct (fold_min_spec (fun b => euclid b cart) rest (euclid a0 cart)) as [Hr [Hle Hall]].
  eexists. split; [reflexivity|]. split.
  - destruct Hr as [Hr|[b [Hb Hr]]]; [exists a0 | exists b]; simpl; auto.
  - intros a [Ha|Ha]; [subst a; exact Hle | apply Hall; exact Ha].
Qed.

Lemma scan_hotspot_geometry flat dims lat atoms top_n m cands st :
  Forall (fun h => exists fc, frac_coord h = map round5 fc /\
                              cart_coord h = map round5 (_frac_to_cart fc lat) /\
                              shortest_distance h = nearest_atom atoms (_frac_to_cart fc lat))
         (hotspots st) ->
  Forall (fun h => exists fc, frac_coord h = map round5 fc /\
                              cart_coord h = map round5 (_frac_to_cart fc lat) /\
                              shortest_distance h = nearest_atom atoms (_frac_to_cart fc lat))
         (hotspots (fst (scan flat dims lat atoms top_n m cands st))).
Proof.
  revert st. induction cands as [|i cands IH]; intros st H; simpl; [exact H|].
  destruct (existsb (Nat.eqb i) (processed st)); [apply IH; assumption|].
  destruct (_is_far_enough_frac _ _ m); simpl; [|apply IH; assumption].
  match goal with
  | |- context [hotspots st ++ [?h0]] =>
      assert (Hn : Forall (fun h => exists fc, frac_coord h = map round5 fc /\
                              cart_coord h = map round5 (_frac_to_cart fc lat) /\
                              shortest_distance h = nearest_atom atoms (_frac_to_cart fc lat))
                          (hotspots st ++ [h0]))
  end.
  { apply Forall_app. split; [exact H|]. constructor; [|constructor].
    eexists. simpl. split; [reflexivity | split; reflexivity]. }
  destruct (top_n <=? _)%Z; simpl; [exact Hn | apply IH; exact Hn].
Qed.

(** X7: every hotspot's Cartesian coordinate is its fractional coordinate
    mapped through the lattice, both rounded to 5 decimals; its
    [shortest_distance] is NaN ([None]) when the structure has no atom,
    and otherwise the rounded Euclidean distance from the hotspot to the
    nearest atom (a distance attained by an atom and at most the distance
    to every atom). *)
Theorem hotspot_cart_and_nearest_atom argtop flat dims lat atoms top_n m :
  Forall (fun h => exists fc,
            frac_coord h = map round5 fc /\
            cart_coord h = map round5 (_frac_to_cart fc lat) /\
            (atoms = [] -> shortest_distance h = None) /\
            (atoms <> [] -> exists d, shortest_distance h = Some (round_R 5 d) /\
               (exists a, In a atoms /\ d = euclid a (_frac_to_cart fc lat)) /\
               (forall a, In a atoms -> (d <= euclid a (_frac_to_cart fc lat))%R)))
         (_extract_hotspots argtop flat dims lat atoms top_n m).
Proof.
  assert (H : Forall (fun h => exists fc, frac_coord h = map round5 fc /\
                              cart_coord h = map round5 (_frac_to_cart fc lat) /\
                              shortest_distance h = nearest_atom atoms (_frac_to_cart fc lat))
                     (_extract_hotspots argtop flat dims lat atoms top_n m)).
  { unfold _extract_hotspots. apply extract_inv; [constructor|].
    intros cc st _ _ Hst. apply scan_hotspot_geometry. exact Hst. }
  eapply Forall_impl; [|exact H]. intros h [fc [H1 [H2 H3]]].
  exists fc. split; [exact H1 | split; [exact H2|]]. rewrite H3. apply nearest_atom_spec.
Qed.

End NearestAtom.
